(** * opentype.js: a shallow embedding of the font decoder and encoder

    The development follows the JavaScript sources:
    - [types.js] (the type encoders, [encode.NUMBER] and friends),
    - the monolithic [opentype.js] (byte reader, [glyf], [cmap] and [kern]
      decoding, [charToGlyphIndex], [getKerningValue], [glyphToPath]),
    - [src/opentype.js] ([parseBuffer]), [src/font.js] and [src/glyphset.js].

    JavaScript numbers that hold integers are modelled by [Z], the 32-bit
    operators ([>>], [<<], [&], [|]) by their wrap-around on [Z], byte buffers
    by [list byte], objects used as dictionaries by [gmap], and code that can
    throw by an explicit [result] type. *)

From Stdlib Require Import ZArith QArith Lia List Bool.
From Stdlib Require Import Strings.String Strings.Ascii Strings.Byte.
From stdpp Require Import base option list gmap strings pretty.

Local Open Scope Z_scope.

(** ** JavaScript 32-bit integer operators *)

Module JS.

(** [ToInt32] of ECMAScript on an integral number: reduce modulo 2^32 into
    the signed range. *)
Definition ToInt32 (v : Z) : Z :=
  let m := v mod 4294967296 in
  if 2147483648 <=? m then m - 4294967296 else m.

(** [a >> n] *)
Definition shr (a n : Z) : Z := Z.shiftr (ToInt32 a) (n mod 32).

(** [a << n] *)
Definition shl (a n : Z) : Z := ToInt32 (Z.shiftl (ToInt32 a) (n mod 32)).

(** [a & b] *)
Definition and (a b : Z) : Z := Z.land (ToInt32 a) (ToInt32 b).

(** [a | b] *)
Definition or (a b : Z) : Z := Z.lor (ToInt32 a) (ToInt32 b).

(** [isBitSet(b, bitIndex)]: [((b >> bitIndex) & 1) === 1]. *)
Definition isBitSet (b bitIndex : Z) : bool :=
  and (shr b bitIndex) 1 =? 1.

End JS.

(** ** types.js: the encoders *)

Module Encode.

(** [encode.NUMBER16]: [[28, (v >> 8) & 0xFF, v & 0xFF]]. *)
Definition NUMBER16 (v : Z) : list Z :=
  [28; JS.and (JS.shr v 8) 255; JS.and v 255].

(** [encode.NUMBER32]:
    [[29, (v >> 24) & 0xFF, (v >> 16) & 0xFF, (v >> 8) & 0xFF, v & 0xFF]]. *)
Definition NUMBER32 (v : Z) : list Z :=
  [29; JS.and (JS.shr v 24) 255; JS.and (JS.shr v 16) 255;
   JS.and (JS.shr v 8) 255; JS.and v 255].

(** [encode.NUMBER]: the variable-size CFF operand encoding. *)
Definition NUMBER (v : Z) : list Z :=
  if (-107 <=? v) && (v <=? 107) then
    [v + 139]
  else if (108 <=? v) && (v <=? 1131) then
    let v2 := v - 108 in
    let b0 := JS.and (JS.shr v2 8) 255 in
    let b1 := v2 - JS.shl b0 8 in
    [b0 + 247; b1]
  else if (-1131 <=? v) && (v <=? -108) then
    let v2 := - v - 108 in
    let b0 := JS.and (JS.shr v2 8) 255 in
    let b1 := v2 - JS.shl b0 8 in
    [b0 + 251; b1]
  else if (-32768 <=? v) && (v <=? 32767) then
    NUMBER16 v
  else
    NUMBER32 v.

(** The encoding table of the format, bucket by bucket: [hi] and [lo] are the
    high and low byte of a 16-bit quantity, and the last row is the value as
    a big-endian 32-bit word. *)
Definition hi (n : Z) : Z := (n / 256) mod 256.
Definition lo (n : Z) : Z := n mod 256.

Definition NUMBER_table (v : Z) : list Z :=
  if (-107 <=? v) && (v <=? 107) then [v + 139]
  else if (108 <=? v) && (v <=? 1131) then [247 + hi (v - 108); lo (v - 108)]
  else if (-1131 <=? v) && (v <=? -108) then [251 + hi (- v - 108); lo (- v - 108)]
  else if (-32768 <=? v) && (v <=? 32767) then [28; hi v; lo v]
  else [29; (v / 2 ^ 24) mod 256; (v / 2 ^ 16) mod 256; (v / 2 ^ 8) mod 256; v mod 256].

End Encode.

(** ** Exceptions *)

(** What a JavaScript [throw] carries: [new Error(message)] of the sources,
    the [RangeError] of a [DataView] access outside its buffer, and the
    [TypeError] of a property access on [undefined] or [null]. *)
Inductive error : Type :=
| Error (message : string)
| RangeError
| TypeError.

(** The outcome of a call.  [OutOfFuel] is the model's own: the [while] loops
    of the sources are unrolled a bounded number of times, and the bounds
    chosen below are shown never to be reached.  In the glyph set, where the
    functions handed to the loaders may call each other, it reports that
    the calls nest deeper than the bound a request was given. *)
Inductive result (A : Type) : Type :=
| Ok (a : A)
| Throw (e : error)
| OutOfFuel.

Arguments Ok {A} a.
Arguments Throw {A} e.
Arguments OutOfFuel {A}.

Definition rbind {A B} (r : result A) (k : A -> result B) : result B :=
  match r with
  | Ok a => k a
  | Throw e => Throw e
  | OutOfFuel => OutOfFuel
  end.

Declare Scope result_scope.
Delimit Scope result_scope with result.
Notation "'let?' x ':=' e 'in' k" := (rbind e (fun x => k))
  (at level 10, x pattern, e at level 100, k at level 200) : result_scope.
Local Open Scope result_scope.

(** [checkArgument(predicate, message)] *)
Definition checkArgument (predicate : bool) (message : string) : result unit :=
  if predicate then Ok tt else Throw (Error message).

(** Monadic left fold, for [_.each] and [for] loops over an array whose body
    can throw. *)
Fixpoint foldM {A B} (f : B -> A -> result A) (l : list B) (a : A) : result A :=
  match l with
  | [] => Ok a
  | b :: l' => let? a' := f b a in foldM f l' a'
  end.

(** [a[i]] on an array, [undefined] outside it. *)
Definition nthZ {A} (l : list A) (i : Z) : option A :=
  if i <? 0 then None else l !! Z.to_nat i.

(** ** DataView: big-endian reads from a byte buffer *)

Module DataView.

Definition t := list byte.

Definition getUint8 (dataView : t) (offset : Z) : result Z :=
  match nthZ dataView offset with
  | Some b => Ok (Z.of_N (Byte.to_N b))
  | None => Throw RangeError
  end.

Definition getInt8 (dataView : t) (offset : Z) : result Z :=
  let? u := getUint8 dataView offset in
  Ok (if 128 <=? u then u - 256 else u).

Definition getUint16 (dataView : t) (offset : Z) : result Z :=
  let? b0 := getUint8 dataView offset in
  let? b1 := getUint8 dataView (offset + 1) in
  Ok (b0 * 256 + b1).

Definition getInt16 (dataView : t) (offset : Z) : result Z :=
  let? u := getUint16 dataView offset in
  Ok (if 32768 <=? u then u - 65536 else u).

Definition getUint32 (dataView : t) (offset : Z) : result Z :=
  let? h := getUint16 dataView offset in
  let? l := getUint16 dataView (offset + 2) in
  Ok (h * 65536 + l).

Definition getInt32 (dataView : t) (offset : Z) : result Z :=
  let? u := getUint32 dataView offset in
  Ok (if 2147483648 <=? u then u - 4294967296 else u).

End DataView.

(** ** opentype.js: the stateful reader *)

Module OpenType.

(** [Parser]: a [DataView], an absolute base offset and a running relative
    offset that every read advances. *)
Record Parser : Type := mkParser {
  dataView : DataView.t;
  offset : Z;
  relativeOffset : Z
}.

Definition newParser (dataView : DataView.t) (offset : Z) : Parser :=
  mkParser dataView offset 0.

(** A method of [Parser]: it reads at the cursor and returns its value with
    the advanced parser, or throws. *)
Definition P (A : Type) : Type := Parser -> result (A * Parser).

Definition ret {A} (a : A) : P A := fun p => Ok (a, p).

Definition bind {A B} (m : P A) (k : A -> P B) : P B :=
  fun p => match m p with
           | Ok (a, p') => k a p'
           | Throw e => Throw e
           | OutOfFuel => OutOfFuel
           end.

Definition lift {A} (r : result A) : P A :=
  fun p => match r with
           | Ok a => Ok (a, p)
           | Throw e => Throw e
           | OutOfFuel => OutOfFuel
           end.

Declare Scope parser_scope.
Delimit Scope parser_scope with parser.
Notation "x <- m ;; k" := (bind m (fun x => k))
  (at level 100, m at next level, right associativity) : parser_scope.
Local Open Scope parser_scope.

(** A read of [width] bytes with the accessor [get]: the shape shared by
    [parseByte], [parseUShort], [parseShort] and [parseULong]. *)
Definition read (get : DataView.t -> Z -> result Z) (width : Z) : P Z :=
  fun p =>
    let? v := get (dataView p) (offset p + relativeOffset p) in
    Ok (v, mkParser (dataView p) (offset p) (relativeOffset p + width)).

Definition parseByte : P Z := read DataView.getUint8 1.
Definition parseUShort : P Z := read DataView.getUint16 2.
Definition parseShort : P Z := read DataView.getInt16 2.
Definition parseULong : P Z := read DataView.getUint32 4.

(** [p.skip(type, amount)], with the width of [type] already looked up in
    [typeOffsets]. *)
Definition skip (width amount : Z) : P unit :=
  fun p => Ok (tt, mkParser (dataView p) (offset p) (relativeOffset p + width * amount)).

(** [for (i = 0; i < n; i += 1) { l.push(m()); }] *)
Fixpoint times {A} (n : nat) (m : P A) : P (list A) :=
  match n with
  | O => ret []
  | S n' => a <- m ;; l <- times n' m ;; ret (a :: l)
  end.

(** ** opentype.js: glyphs *)

(** A contour point. *)
Record Point : Type := mkPoint {
  x : Z;
  y : Z;
  onCurve : bool;
  lastPointOfContour : bool
}.

(** A component of a composite glyph. *)
Record Component : Type := mkComponent {
  glyphIndex : Z;
  dx : Z;
  dy : Z
}.

(** A glyph object.  Properties that the code leaves unset are [None]
    ([undefined]); [isComposite] is [true] or unset, which reads as false.
    [instructionLength] (the length of [instructions]) and the metrics that
    [parseHmtxTable] adds later are not kept: nothing below reads them. *)
Record Glyph : Type := mkGlyph {
  index : Z;
  numberOfContours : Z;
  xMin : Z;
  yMin : Z;
  xMax : Z;
  yMax : Z;
  endPointIndices : option (list Z);
  instructions : option (list Z);
  points : option (list Point);
  isComposite : bool;
  components : option (list Component)
}.

(** [transformPoints(points, dx, dy)] *)
Definition transformPoints (points : list Point) (dx dy : Z) : list Point :=
  map (fun pt => mkPoint (x pt + dx) (y pt + dy) (onCurve pt) (lastPointOfContour pt))
      points.

(** [_parseGlyphCoordinate(p, flag, previousValue, shortVectorBit, sameBit)] *)
Definition _parseGlyphCoordinate (flag previousValue shortVectorBit sameBit : Z) : P Z :=
  if JS.isBitSet flag shortVectorBit then
    v <- parseByte ;;
    let v := if negb (JS.isBitSet flag sameBit) then - v else v in
    ret (previousValue + v)
  else if JS.isBitSet flag sameBit then
    ret previousValue
  else
    d <- parseShort ;;
    ret (previousValue + d).

(** The flag loop of a simple glyph: each pass reads a flag and, when bit 3
    is set, a repeat count; the repeated flags advance [i] as well. *)
Fixpoint parseFlags (fuel : nat) (numberOfCoordinates i : Z) (flags : list Z)
  : P (list Z) :=
  if i <? numberOfCoordinates then
    match fuel with
    | O => fun _ => OutOfFuel
    | S fuel' =>
        flag <- parseByte ;;
        if JS.isBitSet flag 3 then
          repeatCount <- parseByte ;;
          parseFlags fuel' numberOfCoordinates (i + repeatCount + 1)
                     (flags ++ flag :: replicate (Z.to_nat repeatCount) flag)
        else
          parseFlags fuel' numberOfCoordinates (i + 1) (flags ++ [flag])
    end
  else ret flags.

(** The coordinate loops: one value per flag, each relative to the previous
    one. *)
Fixpoint parseCoordinates (flags : list Z) (previous shortVectorBit sameBit : Z)
  : P (list Z) :=
  match flags with
  | [] => ret []
  | flag :: flags' =>
      v <- _parseGlyphCoordinate flag previous shortVectorBit sameBit ;;
      vs <- parseCoordinates flags' v shortVectorBit sameBit ;;
      ret (v :: vs)
  end.

(** [_.contains(endPointIndices, i)] *)
Definition contains (l : list Z) (i : Z) : bool := existsb (Z.eqb i) l.

(** The point objects, in index order, once the three loops have filled
    [onCurve], [lastPointOfContour], [x] and [y]. *)
Fixpoint buildPoints (endPointIndices : list Z) (i : Z) (flags xs ys : list Z)
  : list Point :=
  match flags, xs, ys with
  | flag :: flags', px :: xs', py :: ys' =>
      mkPoint px py (JS.isBitSet flag 0) (contains endPointIndices i)
      :: buildPoints endPointIndices (i + 1) flags' xs' ys'
  | _, _, _ => []
  end.

(** The optional scale of a component: read and discarded. *)
Definition parseComponentScale (flags : Z) : P unit :=
  if JS.isBitSet flags 3 then
    _ <- parseShort ;; ret tt
  else if JS.isBitSet flags 6 then
    _ <- parseShort ;; _ <- parseShort ;; ret tt
  else if JS.isBitSet flags 7 then
    _ <- parseShort ;; _ <- parseShort ;; _ <- parseShort ;; _ <- parseShort ;; ret tt
  else ret tt.

(** The [while (moreComponents)] loop of a composite glyph.  Each component
    is returned next to the flag word it was read with, so that properties
    can name that word; [parseGlyph] keeps the components only. *)
Fixpoint parseComponents (fuel : nat) : P (list (Z * Component)) :=
  match fuel with
  | O => fun _ => OutOfFuel
  | S fuel' =>
      flags <- parseUShort ;;
      glyphIndex <- parseUShort ;;
      arg1 <- (if JS.isBitSet flags 0 then parseShort else parseByte) ;;
      arg2 <- (if JS.isBitSet flags 0 then parseShort else parseByte) ;;
      _ <- parseComponentScale flags ;;
      let component := mkComponent glyphIndex arg1 arg2 in
      if JS.isBitSet flags 5 then
        rest <- parseComponents fuel' ;;
        ret ((flags, component) :: rest)
      else ret [(flags, component)]
  end.

(** The body of [parseGlyph], on the parser [p] it creates.  The closing
    [glyph._length += p.relativeOffset] adds to a property that is never set;
    nothing reads it and it is left out. *)
Definition parseGlyphBody (index : Z) : P Glyph :=
  numberOfContours <- parseShort ;;
  xMin <- parseShort ;;
  yMin <- parseShort ;;
  xMax <- parseShort ;;
  yMax <- parseShort ;;
  if 0 <? numberOfContours then
    endPointIndices <- times (Z.to_nat numberOfContours) parseUShort ;;
    instructionLength <- parseUShort ;;
    instructions <- times (Z.to_nat instructionLength) parseByte ;;
    (* numberOfContours > 0: endPointIndices is not empty and has a last entry *)
    let numberOfCoordinates := default 0 (last endPointIndices) + 1 in
    flags <- parseFlags (Z.to_nat numberOfCoordinates) numberOfCoordinates 0 [] ;;
    _ <- lift (checkArgument (Z.of_nat (length flags) =? numberOfCoordinates) "Bad flags.") ;;
    points <- (if 0 <? Z.of_nat (length endPointIndices) then
                 if 0 <? numberOfCoordinates then
                   xs <- parseCoordinates flags 0 1 4 ;;
                   ys <- parseCoordinates flags 0 2 5 ;;
                   ret (buildPoints endPointIndices 0 flags xs ys)
                 else ret []
               else ret []) ;;
    ret (mkGlyph index numberOfContours xMin yMin xMax yMax
                 (Some endPointIndices) (Some instructions) (Some points) false None)
  else if numberOfContours =? 0 then
    ret (mkGlyph index numberOfContours xMin yMin xMax yMax None None (Some []) false None)
  else
    components <- (fun p => parseComponents (S (length (dataView p))) p) ;;
    ret (mkGlyph index numberOfContours xMin yMin xMax yMax None None (Some []) true
                 (Some (map snd components))).

(** [parseGlyph(data, start, index)] *)
Definition parseGlyph (data : DataView.t) (start : Z) (index : Z) : result Glyph :=
  let? r := parseGlyphBody index (newParser data start) in
  Ok (fst r).

(** The glyph pushed for a zero-length span of [loca]:
    [{index: i, numberOfContours: 0, xMin: 0, xMax: 0, yMin: 0, yMax: 0}]. *)
Definition emptyGlyph (i : Z) : Glyph :=
  mkGlyph i 0 0 0 0 0 None None None false None.

(** First pass of [parseGlyfTable]: one glyph per pair of consecutive
    offsets. *)
Fixpoint parseGlyphs (data : DataView.t) (start i : Z) (loca : list Z)
  : result (list Glyph) :=
  match loca with
  | offset :: ((nextOffset :: _) as loca') =>
      let? glyph := (if negb (offset =? nextOffset)
                     then parseGlyph data (start + offset) i
                     else Ok (emptyGlyph i)) in
      let? glyphs := parseGlyphs data start (i + 1) loca' in
      Ok (glyph :: glyphs)
  | _ => Ok []
  end.

Definition setPoints (glyph : Glyph) (pts : list Point) : Glyph :=
  mkGlyph (index glyph) (numberOfContours glyph) (xMin glyph) (yMin glyph)
          (xMax glyph) (yMax glyph) (endPointIndices glyph) (instructions glyph)
          (Some pts) (isComposite glyph) (components glyph).

(** One component of the composite glyph at slot [i]: the referenced glyph is
    looked up in the array as it is now, and its translated points are pushed
    on the points of glyph [i] in place. *)
Definition absorbComponent (i : nat) (component : Component) (glyphs : list Glyph)
  : result (list Glyph) :=
  match nthZ glyphs (glyphIndex component) with
  | None => Throw TypeError
  | Some componentGlyph =>
      match points componentGlyph with
      | None => Ok glyphs
      | Some componentPoints =>
          let transformedPoints :=
            transformPoints componentPoints (dx component) (dy component) in
          match glyphs !! i with
          | None => Throw TypeError
          | Some glyph =>
              match points glyph with
              | None => Throw TypeError
              | Some pts => Ok (<[i := setPoints glyph (pts ++ transformedPoints)]> glyphs)
              end
          end
      end
  end.

Definition resolveGlyph (i : nat) (glyphs : list Glyph) : result (list Glyph) :=
  match glyphs !! i with
  | None => Ok glyphs
  | Some glyph =>
      if isComposite glyph then
        match components glyph with
        | None => Throw TypeError
        | Some cs => foldM (absorbComponent i) cs glyphs
        end
      else Ok glyphs
  end.

(** Second pass of [parseGlyfTable]: go over the glyphs again, resolving the
    composite glyphs. *)
Definition resolveComposites (glyphs : list Glyph) : result (list Glyph) :=
  foldM resolveGlyph (seq 0 (length glyphs)) glyphs.

(** [parseGlyfTable(data, start, loca)] *)
Definition parseGlyfTable (data : DataView.t) (start : Z) (loca : list Z)
  : result (list Glyph) :=
  let? glyphs := parseGlyphs data start 0 loca in
  resolveComposites glyphs.

(** ** opentype.js: paths *)

(** A drawing command: [{type: 'M', x, y}], [{type: 'L', x, y}],
    [{type: 'C', x1, y1, x2, y2, x, y}], [{type: 'Q', x1, y1, x, y}] and
    [{type: 'Z'}].  Coordinates are numbers; halves of integers occur, so they
    are rationals here. *)
Inductive Command : Type :=
| CmdM (x y : Q)
| CmdL (x y : Q)
| CmdC (x1 y1 x2 y2 x y : Q)
| CmdQ (x1 y1 x y : Q)
| CmdZ.

(** A [Path] object; its [fill], [stroke] and [strokeWidth] are constants of
    the constructor and play no part below. *)
Record Path : Type := mkPath { commands : list Command }.

Definition newPath : Path := mkPath [].
Definition push (c : Command) (path : Path) : Path := mkPath (commands path ++ [c]).
Definition moveTo (x y : Q) : Path -> Path := push (CmdM x y).
Definition lineTo (x y : Q) : Path -> Path := push (CmdL x y).
Definition quadraticCurveTo (x1 y1 x y : Q) : Path -> Path := push (CmdQ x1 y1 x y).
Definition closePath : Path -> Path := push CmdZ.

(** [getContours(glyph)], on the glyph's point array: the loop, then the
    check that no point is left in the current contour. *)
Fixpoint splitContours (pts : list Point) (contours : list (list Point))
         (currentContour : list Point) : list (list Point) * list Point :=
  match pts with
  | [] => (contours, currentContour)
  | pt :: pts' =>
      let currentContour := currentContour ++ [pt] in
      if lastPointOfContour pt
      then splitContours pts' (contours ++ [currentContour]) []
      else splitContours pts' contours currentContour
  end.

Definition getContours (glyph : Glyph) : result (list (list Point)) :=
  match points glyph with
  | None => Throw TypeError
  | Some pts =>
      let '(contours, currentContour) := splitContours pts [] [] in
      let? _ := checkArgument (Nat.eqb (length currentContour) 0)
                  "There are still points left in the current contour." in
      Ok contours
  end.

(** A number pair [{x, y}]: a point's coordinates or a midpoint. *)
Definition XY : Type := (Q * Q)%type.
Definition xyOf (pt : Point) : XY := (inject_Z (x pt), inject_Z (y pt)).
Definition midPoint (prevPt pt : Point) : XY :=
  ((inject_Z (x prevPt) + inject_Z (x pt)) / 2,
   (inject_Z (y prevPt) + inject_Z (y pt)) / 2)%Q.

(** The body of the contour loop at [i === 0]. *)
Definition firstStep (tx ty : Q) (prevPt pt : Point) (path : Path) : option XY * Path :=
  if onCurve pt then
    (None, moveTo (tx + inject_Z (x pt)) (ty - inject_Z (y pt)) path)
  else
    let midPt := midPoint prevPt pt in
    (Some midPt, moveTo (tx + fst midPt) (ty - snd midPt) path).

(** The body of the contour loop at [i > 0].  With boolean flags the four
    tests are exhaustive and the final [throw] cannot be reached. *)
Definition nextStep (tx ty : Q) (prevPt pt : Point) (curvePt : option XY) (path : Path)
  : result (option XY * Path) :=
  if onCurve prevPt && onCurve pt then
    Ok (curvePt, lineTo (tx + inject_Z (x pt)) (ty - inject_Z (y pt)) path)
  else if onCurve prevPt && negb (onCurve pt) then
    Ok (Some (xyOf pt), path)
  else if negb (onCurve prevPt) && negb (onCurve pt) then
    let midPt := midPoint prevPt pt in
    Ok (Some (xyOf pt),
        quadraticCurveTo (tx + inject_Z (x prevPt)) (ty - inject_Z (y prevPt))
                         (tx + fst midPt) (ty - snd midPt) path)
  else
    match curvePt with
    | None => Throw TypeError
    | Some c =>
        Ok (None, quadraticCurveTo (tx + fst c) (ty - snd c)
                                   (tx + inject_Z (x pt)) (ty - inject_Z (y pt)) path)
    end.

Fixpoint walk (tx ty : Q) (prevPt : Point) (rest : list Point)
         (curvePt : option XY) (path : Path) : result (option XY * Path) :=
  match rest with
  | [] => Ok (curvePt, path)
  | pt :: rest' =>
      let? r := nextStep tx ty prevPt pt curvePt path in
      walk tx ty pt rest' (fst r) (snd r)
  end.

(** Connect the last and first points. *)
Definition connect (tx ty : Q) (firstPt : Point) (curvePt : option XY) (path : Path) : Path :=
  match curvePt with
  | Some c => quadraticCurveTo (tx + fst c) (ty - snd c)
                               (tx + inject_Z (x firstPt)) (ty - inject_Z (y firstPt)) path
  | None => lineTo (tx + inject_Z (x firstPt)) (ty - inject_Z (y firstPt)) path
  end.

(** The callback of [_.each(contours, ...)]. *)
Definition drawContour (tx ty : Q) (contour : list Point) (path : Path) : result Path :=
  match contour with
  | [] => Throw TypeError
  | firstPt :: rest =>
      let prevPt := List.last contour firstPt in
      let '(curvePt, path) := firstStep tx ty prevPt firstPt path in
      let? r := walk tx ty firstPt rest curvePt path in
      Ok (connect tx ty firstPt (fst r) (snd r))
  end.

(** [openType.glyphToPath(glyph, tx, ty)] *)
Definition glyphToPath (glyph : Glyph) (tx ty : option Q) : result Path :=
  let tx := default 0%Q tx in
  let ty := default 0%Q ty in
  let path := newPath in
  match points glyph with
  | None => Ok path
  | Some _ =>
      let? contours := getContours glyph in
      let? path := foldM (drawContour tx ty) contours path in
      Ok (closePath path)
  end.

(** ** opentype.js: the font object, [cmap] and [kern] *)

(** A [cmap] segment as [parseCmapTable] builds it.  [ids] is set only for a
    segment whose [idRangeOffset] is not 0. *)
Record Range : Type := mkRange {
  start : Z;
  end_ : Z;
  idDelta : Z;
  ids : option (list Z)
}.

(** Number to string, for an integer (below 10^21 in magnitude, where
    JavaScript prints every digit). *)
Definition numberToString (n : Z) : string := pretty n.

(** [leftIndex + ',' + rightIndex] *)
Definition pairKey (left right : string) : string := left +:+ "," +:+ right.

(** The body of the pair loop of [parseKernTable]:
    [pairs[leftIndex + ',' + rightIndex] = value]. *)
Fixpoint parsePairs (nPairs : nat) (pairs : gmap string Z) : P (gmap string Z) :=
  match nPairs with
  | O => ret pairs
  | S n =>
      leftIndex <- parseUShort ;;
      rightIndex <- parseUShort ;;
      value <- parseShort ;;
      parsePairs n (<[pairKey (numberToString leftIndex) (numberToString rightIndex) := value]> pairs)
  end.

(** [parseKernTable(data, start, glyphs)] *)
Definition parseKernTable (data : DataView.t) (start : Z) : result (gmap string Z) :=
  let body : P (gmap string Z) :=
    tableVersion <- parseUShort ;;
    _ <- lift (checkArgument (tableVersion =? 0) "Unsupported kern table version.") ;;
    nTables <- parseUShort ;;
    _ <- lift (checkArgument (nTables =? 1) "Unsupported number of kern sub-tables.") ;;
    subTableVersion <- parseUShort ;;
    _ <- lift (checkArgument (subTableVersion =? 0) "Unsupported kern sub-table version.") ;;
    subTableLength <- parseUShort ;;
    subTableCoverage <- parseUShort ;;
    nPairs <- parseUShort ;;
    _ <- skip 2 3 ;;
    parsePairs (Z.to_nat nPairs) ∅ in
  let? r := body (newParser data start) in
  Ok (fst r).

(** [openType.Font], with the properties the methods below read. *)
Record Font : Type := mkFont {
  supported : bool;
  glyphs : list Glyph;
  cmap : list Range;
  kerningPairs : option (gmap string Z)
}.

(** A string as its UTF-16 code units; [s.charCodeAt(0)] is the first one,
    and [NaN] ([None]) on the empty string. *)
Definition charCodeAt0 (s : list Z) : option Z := head s.

(** [code < v], false when [code] is [NaN]. *)
Definition codeLt (code : option Z) (v : Z) : bool :=
  match code with Some c => c <? v | None => false end.

(** [v <= code] and [code <= v], false when [code] is [NaN]. *)
Definition leCode (v : Z) (code : option Z) : bool :=
  match code with Some c => v <=? c | None => false end.
Definition codeLe (code : option Z) (v : Z) : bool :=
  match code with Some c => c <=? v | None => false end.

(** The [while (l < r)] loop of [charToGlyphIndex]. *)
Fixpoint searchRange (fuel : nat) (ranges : list Range) (code : option Z) (l r : Z)
  : result Z :=
  if l <? r then
    match fuel with
    | O => OutOfFuel
    | S fuel' =>
        let c := JS.shr (l + r + 1) 1 in
        match nthZ ranges c with
        | None => Throw TypeError
        | Some range =>
            if codeLt code (start range)
            then searchRange fuel' ranges code l (c - 1)
            else searchRange fuel' ranges code c r
        end
    end
  else Ok l.

(** [Font.prototype.charToGlyphIndex(s)].  An entry missing from [ids] is
    [undefined]: the sum is [NaN] and [NaN & 0xFFFF] is 0. *)
Definition charToGlyphIndex (font : Font) (s : list Z) : result Z :=
  let ranges := cmap font in
  let code := charCodeAt0 s in
  let? l := searchRange (length ranges) ranges code 0 (Z.of_nat (length ranges) - 1) in
  match nthZ ranges l with
  | None => Throw TypeError
  | Some range =>
      if leCode (start range) code && codeLe code (end_ range) then
        match code with
        | None => Ok 0
        | Some c =>
            match ids range with
            | None => Ok (JS.and (idDelta range + c) 65535)
            | Some a =>
                match nthZ a (c - start range) with
                | Some id => Ok (JS.and (idDelta range + id) 65535)
                | None => Ok 0
                end
            end
        end
      else Ok 0
  end.

(** An argument of [getKerningValue]: a glyph index, or a glyph object (of
    which only [index] is read). *)
Inductive GlyphOrIndex : Type :=
| AnIndex (i : Z)
| AGlyph (index : Z).

(** [leftGlyph.index ? leftGlyph.index : leftGlyph]: a number has no
    [index]; a glyph with index 0 stays the object. *)
Definition indexOrSelf (g : GlyphOrIndex) : GlyphOrIndex :=
  match g with
  | AnIndex i => AnIndex i
  | AGlyph i => if i =? 0 then AGlyph i else AnIndex i
  end.

(** String conversion in [leftGlyph + ',' + rightGlyph]. *)
Definition toString (g : GlyphOrIndex) : string :=
  match g with
  | AnIndex i => numberToString i
  | AGlyph _ => "[object Object]"
  end.

(** [Font.prototype.getKerningValue(leftGlyph, rightGlyph)]:
    [this.kerningPairs[leftGlyph + ',' + rightGlyph] | 0]. *)
Definition getKerningValue (font : Font) (leftGlyph rightGlyph : GlyphOrIndex)
  : result Z :=
  let leftGlyph := indexOrSelf leftGlyph in
  let rightGlyph := indexOrSelf rightGlyph in
  match kerningPairs font with
  | None => Throw TypeError
  | Some pairs =>
      match pairs !! pairKey (toString leftGlyph) (toString rightGlyph) with
      | Some value => Ok (JS.or value 0)
      | None => Ok 0
      end
  end.

End OpenType.

(** ** src/font.js *)

Module FontJS.

Import OpenType (GlyphOrIndex, AnIndex, AGlyph, toString, pairKey, numberToString).

(** The [Font] object of src/font.js, with the properties read below.
    [kerningPairs] and [outlinesFormat] are unset until [parseBuffer] assigns
    them; [getGposKerningValue] is installed by the [GPOS] decoder. *)
Record Font : Type := mkFont {
  supported : bool;
  outlinesFormat : option string;
  kerningPairs : option (gmap string Z);
  getGposKerningValue : option (GlyphOrIndex -> GlyphOrIndex -> Z)
}.

(** [new Font()] *)
Definition newFont : Font := mkFont true None None None.

(** [leftGlyph.index || leftGlyph] *)
Definition indexOrSelf (g : GlyphOrIndex) : GlyphOrIndex :=
  match g with
  | AnIndex i => AnIndex i
  | AGlyph i => if i =? 0 then AGlyph i else AnIndex i
  end.

(** [Font.prototype.getKerningValue(leftGlyph, rightGlyph)] *)
Definition getKerningValue (font : Font) (leftGlyph rightGlyph : GlyphOrIndex)
  : result Z :=
  let leftGlyph := indexOrSelf leftGlyph in
  let rightGlyph := indexOrSelf rightGlyph in
  match getGposKerningValue font with
  | Some gposKerning => Ok (gposKerning leftGlyph rightGlyph)
  | None =>
      match kerningPairs font with
      | None => Throw TypeError
      | Some pairs =>
          match pairs !! pairKey (toString leftGlyph) (toString rightGlyph) with
          | Some value => Ok (if value =? 0 then 0 else value)
          | None => Ok 0
          end
      end
  end.

End FontJS.

(** ** src/opentype.js: [parseBuffer] *)

Module Parse.

(** Modelled from the spec: [parse.getFixed] belongs to parse.js, which is
    not among the sources.  The reader decodes a "16.16 fixed-point (4B)"
    value, big-endian: the signed 32-bit word over 65536. *)
Definition getFixed (dataView : DataView.t) (offset : Z) : result Q :=
  let? n := DataView.getInt32 dataView offset in
  Ok (inject_Z n / 65536)%Q.

Definition getChar (dataView : DataView.t) (offset : Z) : result ascii :=
  match nthZ dataView offset with
  | Some b => Ok (ascii_of_byte b)
  | None => Throw RangeError
  end.

(** Modelled from the spec: [parse.getTag] belongs to parse.js as well; it
    reads a "4-byte ASCII tag". *)
Definition getTag (dataView : DataView.t) (offset : Z) : result string :=
  let? c0 := getChar dataView offset in
  let? c1 := getChar dataView (offset + 1) in
  let? c2 := getChar dataView (offset + 2) in
  let? c3 := getChar dataView (offset + 3) in
  Ok (String c0 (String c1 (String c2 (String c3 EmptyString)))).

End Parse.

Module Main.

Definition setOutlinesFormat (font : FontJS.Font) (format : string) : FontJS.Font :=
  FontJS.mkFont (FontJS.supported font) (Some format) (FontJS.kerningPairs font)
                (FontJS.getGposKerningValue font).

Section ParseBuffer.

(** What [parseBuffer] does after the version test: the loop over the table
    directory and the decoding of the outlines, by the table modules. *)
Variable decodeTables : FontJS.Font -> DataView.t -> result FontJS.Font.

(** [parseBuffer(buffer)] *)
Definition parseBuffer (buffer : list byte) : result FontJS.Font :=
  let font := FontJS.newFont in
  let data : DataView.t := buffer in
  let? version := Parse.getFixed data 0 in
  let? font :=
    (if Qeq_bool version 1 then
       Ok (setOutlinesFormat font "truetype")
     else
       let? version := Parse.getTag data 0 in
       if String.eqb version "OTTO" then
         Ok (setOutlinesFormat font "cff")
       else
         Throw (Error ("Unsupported OpenType version " +:+ version))) in
  decodeTables font data.

End ParseBuffer.

End Main.

(** ** src/glyphset.js *)

Module GlyphSet.

Section GlyphSet.

(** What a decoder stores in a glyph (its points, its components, ...) and
    the outline it builds. *)
Context {Fields PathData : Type}.

(** Objects are told apart by their address: a glyph is a position in the
    heap of glyph objects, a path a position in the heap of paths. *)
Definition glyphRef : Type := nat.
Definition pathRef : Type := nat.

(** A function that is handed a glyph and the glyph set, as the arguments
    [parseGlyph], [buildPath] and [parseCFFCharstring] of the loaders are:
    the calls and accesses it makes on them before it returns a value or
    throws.
    - [GetGlyph index]: the call [glyphs.get(index)];
    - [ReadFields glyph], [WriteFields glyph fields]: a read and an
      assignment of the decoded properties of a glyph;
    - [ReadPath glyph]: the read [glyph.path];
    - [ReadCommands p]: the contents of a path object. *)
Inductive Prog (A : Type) : Type :=
| Return (a : A)
| Raise (e : error)
| GetGlyph (index : Z) (k : option glyphRef -> Prog A)
| ReadFields (glyph : glyphRef) (k : option Fields -> Prog A)
| WriteFields (glyph : glyphRef) (fields : Fields) (k : Prog A)
| ReadPath (glyph : glyphRef) (k : pathRef -> Prog A)
| ReadCommands (p : pathRef) (k : option PathData -> Prog A).

Arguments Return {A} a.
Arguments Raise {A} e.
Arguments GetGlyph {A} index k.
Arguments ReadFields {A} glyph k.
Arguments WriteFields {A} glyph fields k.
Arguments ReadPath {A} glyph k.
Arguments ReadCommands {A} p k.

(** [m; f(result of m)] *)
Fixpoint bind {A B : Type} (m : Prog A) (f : A -> Prog B) : Prog B :=
  match m with
  | Return a => f a
  | Raise e => Raise e
  | GetGlyph index k => GetGlyph index (fun g => bind (k g) f)
  | ReadFields glyph k => ReadFields glyph (fun d => bind (k d) f)
  | WriteFields glyph d k => WriteFields glyph d (bind k f)
  | ReadPath glyph k => ReadPath glyph (fun p => bind (k p) f)
  | ReadCommands p k => ReadCommands p (fun c => bind (k c) f)
  end.

(** The closure a loader returns:
    [function() { var glyph = new Glyph({index, font}); glyph.path = function() {...}; return glyph; }].
    The path function closes over the glyph the loader has just made, so it
    is given by what it does for each glyph. *)
Record Loader : Type := mkLoader {
  loaderIndex : Z;
  pathFn : glyphRef -> Prog PathData
}.

(** [GlyphSet.ttfGlyphLoader(font, index, parseGlyph, data, position, buildPath)]:
    the path function runs [parseGlyph(glyph, data, position)], drops what
    it returns, and returns [buildPath(font.glyphs, glyph)]; the glyph set
    of the font is the one the programs act on. *)
Definition ttfGlyphLoader {D R : Type} (index : Z)
           (parseGlyph : glyphRef -> D -> Z -> Prog R)
           (data : D) (position : Z)
           (buildPath : glyphRef -> Prog PathData) : Loader :=
  mkLoader index (fun glyph =>
    bind (parseGlyph glyph data position) (fun _ => buildPath glyph)).

(** [GlyphSet.cffGlyphLoader(font, index, parseCFFCharstring, charstring)]:
    the path function returns [parseCFFCharstring(font, glyph, charstring)]. *)
Definition cffGlyphLoader {C : Type} (index : Z)
           (parseCFFCharstring : glyphRef -> C -> Prog PathData)
           (charstring : C) : Loader :=
  mkLoader index (fun glyph => parseCFFCharstring glyph charstring).

(** The [path] property of a glyph: the function a loader assigned, or the
    path it has produced. *)
Inductive PathSlot : Type :=
| PathFunction (f : Prog PathData)
| PathObject (p : pathRef).

(** A glyph object; [fields] is unset until a decoder fills the glyph. *)
Record Glyph : Type := mkGlyph {
  index : Z;
  fields : option Fields;
  path : PathSlot
}.

(** A slot of [this.glyphs]: [typeof this.glyphs[index] === 'function'], or
    a glyph object. *)
Inductive Entry : Type :=
| Deferred (loader : Loader)
| Materialized (glyph : glyphRef).

(** What has been called, for counting: the loader stored at an index, the
    path function of a glyph. *)
Inductive Event : Type :=
| Produced (index : Z)
| Decoding (glyph : glyphRef).

(** The glyph set with the objects it reaches. *)
Record State : Type := mkState {
  glyphs : gmap Z Entry;
  length : Z;
  heap : list Glyph;
  paths : list PathData;
  log : list Event
}.

(** [new GlyphSet(font)] *)
Definition newGlyphSet : State := mkState ∅ 0 [] [] [].

(** [push(index, loader)] *)
Definition push (index : Z) (loader : Loader) (s : State) : State :=
  mkState (<[index := Deferred loader]> (glyphs s)) (length s + 1)
          (heap s) (paths s) (log s).

(** A call of the loader: a new glyph object whose [path] is the loader's
    path function for that glyph. *)
Definition callLoader (loader : Loader) (s : State) : glyphRef * State :=
  let glyph := List.length (heap s) in
  (glyph,
   mkState (glyphs s) (length s)
           (heap s ++ [mkGlyph (loaderIndex loader) None
                               (PathFunction (pathFn loader glyph))])
           (paths s) (log s)).

(** [get(index)]; [None] is [undefined], after the message on the console.
    The call [this.glyphs[index]()] is recorded in the log. *)
Definition get (index : Z) (s : State) : option glyphRef * State :=
  match glyphs s !! index with
  | Some (Deferred loader) =>
      let '(glyph, s') := callLoader loader s in
      (Some glyph,
       mkState (<[index := Materialized glyph]> (glyphs s')) (length s')
               (heap s') (paths s') (log s' ++ [Produced index]))
  | Some (Materialized glyph) => (Some glyph, s)
  | None => (None, s)
  end.

Definition logged (e : Event) (s : State) : State :=
  mkState (glyphs s) (length s) (heap s) (paths s) (log s ++ [e]).

(** An assignment of the decoded properties of the glyph object [glyph]. *)
Definition setFields (glyph : glyphRef) (d : Fields) (s : State) : State :=
  mkState (glyphs s) (length s)
          (alter (fun g => mkGlyph (index g) (Some d) (path g)) glyph (heap s))
          (paths s) (log s).

(** The path a path function has returned becomes the [path] of [glyph]. *)
Definition storePath (glyph : glyphRef) (pd : PathData) (s : State) : pathRef * State :=
  let p := List.length (paths s) in
  (p,
   mkState (glyphs s) (length s)
           (alter (fun g => mkGlyph (index g) (fields g) (PathObject p)) glyph (heap s))
           (paths s ++ [pd]) (log s)).

(** A run of a decoder.  A JavaScript [throw] does not undo what the
    function has done so far, so the state is returned with every outcome.
    [readPath] is the meaning of [glyph.path]. *)
Fixpoint exec {A : Type} (readPath : glyphRef -> State -> result pathRef * State)
         (m : Prog A) (s : State) : result A * State :=
  match m with
  | Return a => (Ok a, s)
  | Raise e => (Throw e, s)
  | GetGlyph index k =>
      let '(g, s') := get index s in exec readPath (k g) s'
  | ReadFields glyph k =>
      exec readPath (k (heap s !! glyph ≫= fields)) s
  | WriteFields glyph d k =>
      match heap s !! glyph with
      | Some _ => exec readPath k (setFields glyph d s)
      | None => (Throw TypeError, s)
      end
  | ReadPath glyph k =>
      match readPath glyph s with
      | (Ok p, s') => exec readPath (k p) s'
      | (Throw e, s') => (Throw e, s')
      | (OutOfFuel, s') => (OutOfFuel, s')
      end
  | ReadCommands p k =>
      exec readPath (k (paths s !! p)) s
  end.

(** Modelled from the spec: the [Glyph] constructor belongs to glyph.js,
    which is not among the sources.  A glyph's derived outline path is
    "computed once, cached, never recomputed": reading [glyph.path] calls
    the path function the first time and keeps the path object it returned;
    a path function that throws has returned nothing to keep.  The call is
    recorded in the log.  A path function may read the paths of other
    glyphs, which may call their path functions in turn; [depth] bounds the
    nesting of these calls, and [OutOfFuel] reports that it was reached. *)
Fixpoint readPath (depth : nat) (glyph : glyphRef) (s : State) : result pathRef * State :=
  match heap s !! glyph with
  | None => (Throw TypeError, s)
  | Some g =>
      match path g with
      | PathObject p => (Ok p, s)
      | PathFunction f =>
          match depth with
          | O => (OutOfFuel, s)
          | S depth' =>
              match exec (readPath depth') f (logged (Decoding glyph) s) with
              | (Ok pd, s') =>
                  let '(p, s'') := storePath glyph pd s' in (Ok p, s'')
              | (Throw e, s') => (Throw e, s')
              | (OutOfFuel, s') => (OutOfFuel, s')
              end
          end
      end
  end.

(** [font.glyphs.get(index).path] *)
Definition getGlyphPath (depth : nat) (index : Z) (s : State) : result pathRef * State :=
  match get index s with
  | (Some glyph, s') => readPath depth glyph s'
  | (None, s') => (Throw TypeError, s')
  end.




(** How often the loader of [index] and the path function of [glyph] have
    been called. *)
Definition isProduced (index : Z) (e : Event) : bool :=
  match e with Produced i => i =? index | Decoding _ => false end.
Definition isDecoding (glyph : glyphRef) (e : Event) : bool :=
  match e with Decoding g => Nat.eqb g glyph | Produced _ => false end.
Definition loaderRuns (index : Z) (s : State) : nat :=
  List.length (List.filter (isProduced index) (log s)).
Definition decodeRuns (glyph : glyphRef) (s : State) : nat :=
  List.length (List.filter (isDecoding glyph) (log s)).

End GlyphSet.

Arguments Return {Fields PathData A} a.
Arguments Raise {Fields PathData A} e.
Arguments GetGlyph {Fields PathData A} index k.
Arguments ReadFields {Fields PathData A} glyph k.
Arguments WriteFields {Fields PathData A} glyph fields k.
Arguments ReadPath {Fields PathData A} glyph k.
Arguments ReadCommands {Fields PathData A} p k.

End GlyphSet.
(** * Vocabulary of the properties *)

Import OpenType.

(** ** Contours and outlines *)

(** A contour as [splitContours] cuts it: a run of unflagged points closed by
    one flagged point. *)
Definition isContour (contour : list Point) : Prop :=
  exists body pt, contour = body ++ [pt] /\ lastPointOfContour pt = true /\
                  Forall (fun q => lastPointOfContour q = false) body.

Definition isClose (c : Command) : bool :=
  match c with CmdZ => true | _ => false end.

(** The number of close commands of a path. *)
Definition closeCount (path : Path) : nat :=
  List.length (List.filter isClose (commands path)).

(** A point list that [getContours] accepts: empty, or ended by a flagged
    point. *)
Definition wellFormedPoints (pts : list Point) : bool :=
  match last pts with
  | None => true
  | Some pt => lastPointOfContour pt
  end.

(** The control point left pending when the loop over a contour ends: none
    when the contour's last point is on the curve; otherwise that off-curve
    point itself, and for a contour of one off-curve point the midpoint
    taken at the start of the contour. *)
Definition pendingControl (contour : list Point) : option XY :=
  match contour with
  | [] => None
  | [pt] => if onCurve pt then None else Some (midPoint pt pt)
  | firstPt :: _ =>
      let lastPt := List.last contour firstPt in
      if onCurve lastPt then None else Some (xyOf lastPt)
  end.

(** Where a contour starts: on its first point when that is on the curve,
    otherwise halfway between its last and its first point. *)
Definition startCommand (tx ty : Q) (firstPt lastPt : Point) : Command :=
  if onCurve firstPt then
    CmdM (tx + inject_Z (x firstPt)) (ty - inject_Z (y firstPt))
  else
    CmdM (tx + fst (midPoint lastPt firstPt)) (ty - snd (midPoint lastPt firstPt)).

(** The segment back to the first point of a contour: a quadratic curve
    through the pending control point when there is one, otherwise a
    straight line. *)
Definition closingSegment (tx ty : Q) (firstPt : Point) (pending : option XY) : Command :=
  match pending with
  | Some c => CmdQ (tx + fst c) (ty - snd c)
                   (tx + inject_Z (x firstPt)) (ty - inject_Z (y firstPt))
  | None => CmdL (tx + inject_Z (x firstPt)) (ty - inject_Z (y firstPt))
  end.

(** [cmds] draws [contour]: it starts with the move to the contour's start,
    holds no close command, and its final command is the segment back to
    the first point of the contour, curved exactly when the contour's last
    point is off the curve. *)
Definition drawsContour (tx ty : Q) (contour : list Point) (cmds : list Command) : Prop :=
  exists firstPt rest middle,
    contour = firstPt :: rest /\
    cmds = startCommand tx ty firstPt (List.last contour firstPt) :: middle
           ++ [closingSegment tx ty firstPt (pendingControl contour)] /\
    Forall (fun c => isClose c = false) cmds.

(** The kind of the closing segment, read off the contour alone. *)
Definition endsOffCurve (contour : list Point) : bool :=
  match last contour with
  | Some pt => negb (onCurve pt)
  | None => false
  end.

Definition isCurve (c : Command) : bool :=
  match c with CmdQ _ _ _ _ => true | _ => false end.

(** The last command of [cmds] is a quadratic curve if the contour ends off
    the curve, and a straight line otherwise. *)
Definition closesByKind (contour : list Point) (cmds : list Command) : Prop :=
  exists k, last cmds = Some k /\
            if endsOffCurve contour then isCurve k = true
            else exists x y, k = CmdL x y.

(** What the loop keeps true of [curvePt]: it is set exactly when the point
    just handled is off the curve. *)
Definition pendingFor (prevPt : Point) (curvePt : option XY) : Prop :=
  (onCurve prevPt = true -> curvePt = None) /\
  (onCurve prevPt = false -> is_Some curvePt).

Definition pendingAfter (pt : Point) : option XY :=
  if onCurve pt then None else Some (xyOf pt).


(** ** Example glyphs *)

Definition simpleGlyph (pts : list Point) : Glyph :=
  mkGlyph 0 0 0 0 0 0 None None (Some pts) false None.

(** A triangle followed by a two-point contour. *)
Definition twoContours : Glyph :=
  simpleGlyph [mkPoint 0 0 true false; mkPoint 10 0 true false; mkPoint 0 10 true true;
               mkPoint 20 20 true false; mkPoint 30 20 false true].

(** The same points with the final flag dropped. *)
Definition leftoverPoints : Glyph :=
  simpleGlyph [mkPoint 0 0 true false; mkPoint 10 0 true false; mkPoint 0 10 true true;
               mkPoint 20 20 true false; mkPoint 30 20 false false].

(** ** Composite resolution *)

(** [g'] is [g] after points were pushed on its point list (or [g] itself). *)
Definition grows (g g' : Glyph) : Prop :=
  g' = g \/ exists pts extra, points g = Some pts /\ g' = setPoints g (pts ++ extra).

(** The glyph array [gl'] is [gl] with points pushed on the glyph at [i]. *)
Definition evolvesAt (i : nat) (gl gl' : list Glyph) : Prop :=
  forall j g, gl !! j = Some g ->
    exists g', gl' !! j = Some g' /\ grows g g' /\ (j <> i -> g' = g).

(** The glyph array [gl'] is [gl] with points pushed on composite glyphs. *)
Definition evolves (gl gl' : list Glyph) : Prop :=
  forall j g, gl !! j = Some g ->
    exists g', gl' !! j = Some g' /\ grows g g' /\ (isComposite g = false -> g' = g).

(** [pt] moved by [(dx, dy)], flags kept. *)
Definition translate (dx dy : Z) (pt : Point) : Point :=
  mkPoint (x pt + dx) (y pt + dy) (onCurve pt) (lastPointOfContour pt).

(** ** Example tables *)

Definition bytesOf (l : list N) : list byte :=
  List.map (fun n => default x00 (Byte.of_N n)) l.



(** A glyph record that declares no contours and the bounding box
    (1, 2, 3, 4), after an empty span. *)
Definition contourlessData : DataView.t :=
  bytesOf [0; 0;  0; 1; 0; 2; 0; 3; 0; 4]%N.
Definition contourlessLoca : list Z := [0; 0; 10].

(** A composite glyph whose one component has the byte-sized arguments 246
    and 236 (-10 and -20 if they were read as signed bytes). *)
Definition highByteArgsData : DataView.t :=
  bytesOf [255; 255;  0; 0; 0; 0; 0; 0; 0; 0;  0; 2;  0; 3;  246; 236]%N.

(** Where the reader stands: the absolute offset of the next read. *)
Definition position (p : Parser) : Z := offset p + relativeOffset p.

(** A computation that cannot exhaust the model's loop budget. *)
Definition bounded {A} (r : result A) : Prop := r <> OutOfFuel.

(** ** Character maps *)

(** Segments in ascending order that do not overlap: each is a range
    [start..end], and each ends before the next one starts. *)
Fixpoint segmentsOrdered (ranges : list Range) : bool :=
  match ranges with
  | [] => true
  | range :: rest =>
      (start range <=? end_ range)
      && match rest with
         | [] => true
         | next :: _ => end_ range <? start next
         end
      && segmentsOrdered rest
  end.

(** The code point lies inside the segment. *)
Definition inSegment (code : Z) (range : Range) : bool :=
  (start range <=? code) && (code <=? end_ range).

Definition fontWithCmap (ranges : list Range) : Font := mkFont true [] ranges None.

(** Two segments, 65..90 with delta -36 and the closing 65535..65535. *)
Definition latinCmap : list Range :=
  [mkRange 65 90 (-36) None; mkRange 65535 65535 1 None].

(** What the loop of [charToGlyphIndex] keeps true of [l] and [r]: every
    segment after the first up to [l] starts at or before the code, every
    segment beyond [r] starts after it. *)
Definition startsUpTo (ranges : list Range) (code l : Z) : Prop :=
  forall j rj, 0 < j <= l -> nthZ ranges j = Some rj -> start rj <= code.
Definition startsBeyond (ranges : list Range) (code r : Z) : Prop :=
  forall j rj, r < j -> nthZ ranges j = Some rj -> code < start rj.

(** ** Font files *)

(** The value of a byte. *)
Definition byteValue (b : byte) : Z := Z.of_N (Byte.to_N b).

(** The first four bytes of a buffer as a big-endian signed 32-bit word. *)
Definition word32 (b0 b1 b2 b3 : byte) : Z :=
  let u := (byteValue b0 * 256 + byteValue b1) * 65536
           + (byteValue b2 * 256 + byteValue b3) in
  if 2147483648 <=? u then u - 4294967296 else u.

(** The version 0x00010000 and the tag 'OTTO'. *)
Definition trueTypeVersion : list byte := [x00; x01; x00; x00].
Definition ottoTag : list byte := [x4f; x54; x54; x4f].

(** ** Kerning *)

(** An entry of the [kern] table: left index, right index, value. *)
Definition KernEntry : Type := (Z * Z * Z)%type.

Definition indexKey (left right : Z) : string :=
  pairKey (numberToString left) (numberToString right).

(** The object that the pair loop of [parseKernTable] fills from the entries
    of the file, one assignment per entry, in file order. *)
Definition kernTable (entries : list KernEntry) : gmap string Z :=
  fold_left (fun pairs e => <[indexKey e.1.1 e.1.2 := e.2]> pairs) entries ∅.

(** The adjustment the entries hold for the ordered pair [(left, right)]:
    that of the last such entry, if there is one. *)
Definition storedValue (entries : list KernEntry) (left right : Z) : option Z :=
  fold_left (fun acc e => if (e.1.1 =? left) && (e.1.2 =? right) then Some e.2 else acc)
            entries None.

(** The table with the one pair (4, 9) and the value -50. *)
Definition onePair : list KernEntry := [(4, 9, -50)].

(** A string without a comma. *)
Fixpoint noComma (s : string) : bool :=
  match s with
  | EmptyString => true
  | String c s' => negb (Ascii.eqb c ",") && noComma s'
  end.

(** Fonts that hold the kerning pairs [entries]: the font of opentype.js,
    the font of src/font.js without a [GPOS] kerning function, and the
    latter with a [GPOS] function that adjusts no pair. *)
Definition kernFont (entries : list KernEntry) : OpenType.Font :=
  OpenType.mkFont true [] [] (Some (kernTable entries)).
Definition kernFontJS (entries : list KernEntry) : FontJS.Font :=
  FontJS.mkFont true (Some "truetype"%string) (Some (kernTable entries)) None.
Definition gposFontJS (entries : list KernEntry) : FontJS.Font :=
  FontJS.mkFont true (Some "truetype"%string) (Some (kernTable entries))
                (Some (fun _ _ => 0)).

(** ** The glyph set *)

Section GlyphSetVocabulary.

Context {Fields PathData : Type}.
Abbreviation State := (@GlyphSet.State Fields PathData).
Abbreviation Loader := (@GlyphSet.Loader Fields PathData).
Abbreviation Entry := (@GlyphSet.Entry Fields PathData).

(** A glyph set filled with deferred loaders: [new GlyphSet(font)] followed
    by one [push(index, loader)] per glyph. *)
Definition populate (loaders : list (Z * Loader)) : State :=
  fold_left (fun s il => GlyphSet.push il.1 il.2 s) loaders GlyphSet.newGlyphSet.








End GlyphSetVocabulary.

(** Stand-ins for the decoders a TrueType font hands to the loaders.
    [parseGlyph] stores the position it is given in the glyph. *)
Definition storePosition (glyph : GlyphSet.glyphRef) (data : list byte) (position : Z)
  : @GlyphSet.Prog Z (list Command) unit :=
  GlyphSet.WriteFields glyph position (GlyphSet.Return tt).

(** A [buildPath] for a simple glyph: its outline, once the glyph has been
    parsed. *)
Definition outlineOf (cmds : list Command) (glyph : GlyphSet.glyphRef)
  : @GlyphSet.Prog Z (list Command) (list Command) :=
  GlyphSet.ReadFields glyph (fun d =>
    match d with
    | Some _ => GlyphSet.Return cmds
    | None => GlyphSet.Raise TypeError
    end).

(** A [buildPath] for a composite glyph: it asks the glyph set for the
    component, reads the component's path, and puts its own commands
    behind the component's. *)
Definition outlineWithComponent (component : Z) (cmds : list Command)
           (glyph : GlyphSet.glyphRef)
  : @GlyphSet.Prog Z (list Command) (list Command) :=
  GlyphSet.GetGlyph component (fun g =>
    match g with
    | None => GlyphSet.Raise TypeError
    | Some c =>
        GlyphSet.ReadPath c (fun p =>
          GlyphSet.ReadCommands p (fun pd =>
            match pd with
            | Some own => GlyphSet.Return (own ++ cmds)
            | None => GlyphSet.Raise TypeError
            end))
    end).

(** The loaders of a simple glyph 0, of a glyph 7 with the component 0, and
    of a glyph 9 whose component 3 is not in the set. *)
Definition loader0 : @GlyphSet.Loader Z (list Command) :=
  GlyphSet.ttfGlyphLoader 0 storePosition [] 0 (outlineOf [CmdZ]).
Definition loader7 : @GlyphSet.Loader Z (list Command) :=
  GlyphSet.ttfGlyphLoader 7 storePosition [] 12 (outlineWithComponent 0 [CmdM 0 0; CmdZ]).
Definition loader9 : @GlyphSet.Loader Z (list Command) :=
  GlyphSet.ttfGlyphLoader 9 storePosition [] 40 (outlineWithComponent 3 [CmdZ]).

Definition twoLoaders : list (Z * @GlyphSet.Loader Z (list Command)) :=
  [(0, loader0); (7, loader7)].
Definition threeLoaders : list (Z * @GlyphSet.Loader Z (list Command)) :=
  [(0, loader0); (7, loader7); (9, loader9)].

(** ** More example inputs *)

(** A simple glyph of three points whose one flag byte is repeated twice:
    on-curve, one-byte positive deltas (1,4), (2,5), (3,6). *)
Definition repeatedFlagsData : DataView.t :=
  bytesOf [0; 1;  0; 1; 0; 4; 0; 6; 0; 15;  0; 2;  0; 0;  63; 2;  1; 2; 3;  4; 5; 6]%N.

(** A contour with an off-curve point between two on-curve points. *)
Definition quadraticGlyph : Glyph :=
  simpleGlyph [mkPoint 0 0 true false; mkPoint 10 10 false false; mkPoint 20 0 true true].

(** A [kern] table with the one pair (4, 9) and the value -50. *)
Definition kernData : DataView.t :=
  bytesOf [0; 0;  0; 1;  0; 0;  0; 20;  0; 1;  0; 1;  0; 6; 0; 0; 0; 0;
           0; 4;  0; 9;  255; 206]%N.
(** * Properties *)


(** ** The 32-bit operators *)

Lemma ToInt32_congr v : exists q, JS.ToInt32 v = v + q * 4294967296.
Proof.
  unfold JS.ToInt32.
  pose proof (Z.div_mod v 4294967296 ltac:(lia)) as E.
  destruct (2147483648 <=? v mod 4294967296).
  - exists (- (v / 4294967296) - 1). lia.
  - exists (- (v / 4294967296)). lia.
Qed.

Lemma ToInt32_range v : -2147483648 <= JS.ToInt32 v < 2147483648.
Proof.
  unfold JS.ToInt32.
  pose proof (Z.mod_pos_bound v 4294967296 ltac:(lia)).
  destruct (Z.leb_spec 2147483648 (v mod 4294967296)); lia.
Qed.

Lemma ToInt32_small v : -2147483648 <= v < 2147483648 -> JS.ToInt32 v = v.
Proof.
  intros Hv. destruct (ToInt32_congr v) as [q Hq].
  pose proof (ToInt32_range v). lia.
Qed.

(** The byte of [v] that starts at bit [k], for the four byte positions of a
    32-bit word: what [(v >> k) & 0xFF] computes. *)
Lemma byte_at v k :
  0 <= k <= 24 -> JS.and (JS.shr v k) 255 = (v / 2 ^ k) mod 256.
Proof.
  intros Hk. unfold JS.and, JS.shr.
  rewrite (Z.mod_small k 32) by lia.
  rewrite (ToInt32_small 255) by lia.
  assert (Hr : -2147483648 <= Z.shiftr (JS.ToInt32 v) k < 2147483648).
  { pose proof (ToInt32_range v) as R. rewrite Z.shiftr_div_pow2 by lia.
    assert (0 < 2 ^ k) by (apply Z.pow_pos_nonneg; lia).
    split.
    - apply Z.div_le_lower_bound; [lia|]. nia.
    - apply Z.div_lt_upper_bound; [lia|]. nia. }
  rewrite (ToInt32_small _ Hr).
  change 255 with (Z.ones 8). rewrite Z.land_ones by lia.
  rewrite Z.shiftr_div_pow2 by lia.
  destruct (ToInt32_congr v) as [q ->].
  replace (q * 4294967296) with ((q * 2 ^ (32 - k)) * 2 ^ k).
  2:{ rewrite <- Z.mul_assoc, <- Z.pow_add_r by lia.
      replace (32 - k + k) with 32 by lia. reflexivity. }
  rewrite Z.div_add by (apply Z.pow_nonzero; lia).
  replace (q * 2 ^ (32 - k)) with ((q * 2 ^ (24 - k)) * 2 ^ 8).
  2:{ rewrite <- Z.mul_assoc, <- Z.pow_add_r by lia.
      replace (24 - k + 8) with (32 - k) by lia. reflexivity. }
  change (2 ^ 8) with 256.
  apply Z.mod_add. lia.
Qed.


(** ** Properties of the encoders *)

Lemma and_255_lo v : JS.and v 255 = Encode.lo v.
Proof.
  replace (JS.and v 255) with (JS.and (JS.shr v 0) 255).
  - rewrite byte_at by lia. unfold Encode.lo. now rewrite Z.div_1_r.
  - unfold JS.and, JS.shr. change (0 mod 32) with 0. rewrite Z.shiftr_0_r.
    now rewrite (ToInt32_small (JS.ToInt32 v)) by apply ToInt32_range.
Qed.

Lemma shr8_hi v : JS.and (JS.shr v 8) 255 = Encode.hi v.
Proof. rewrite byte_at by lia. reflexivity. Qed.

Lemma two_byte_split n :
  0 <= n < 65536 ->
  n - JS.shl (Encode.hi n) 8 = Encode.lo n.
Proof.
  intros Hn. unfold JS.shl, Encode.hi, Encode.lo.
  assert (Hh : 0 <= n / 256 < 256).
  { split; [apply Z.div_pos; lia | apply Z.div_lt_upper_bound; lia]. }
  rewrite (Z.mod_small (n / 256)) by lia.
  rewrite (ToInt32_small (n / 256)) by lia.
  change (8 mod 32) with 8. rewrite Z.shiftl_mul_pow2 by lia.
  change (2 ^ 8) with 256.
  rewrite ToInt32_small by lia.
  pose proof (Z.div_mod n 256 ltac:(lia)). lia.
Qed.

(** C1. For every integer [v], [encode.NUMBER v] is the row of the encoding
    table selected by the breakpoint bucket of [v]: one byte [v + 139] on
    -107..107, the two bytes [247 + hi, lo] of [v - 108] on 108..1131, the two
    bytes [251 + hi, lo] of [-v - 108] on -1131..-108, the three bytes
    [0x1C, hi, lo] of [v] elsewhere on -32768..32767, and otherwise [0x1D]
    followed by [v] as a big-endian 4-byte value. *)
Theorem NUMBER_follows_table :
  forall v : Z, Encode.NUMBER v = Encode.NUMBER_table v.
Proof.
  intros v. unfold Encode.NUMBER, Encode.NUMBER_table.
  destruct ((-107 <=? v) && (v <=? 107)) eqn:B1; [reflexivity|].
  destruct ((108 <=? v) && (v <=? 1131)) eqn:B2.
  { apply andb_true_iff in B2 as [L U]. apply Z.leb_le in L, U.
    cbv zeta. rewrite shr8_hi, two_byte_split by lia.
    now rewrite Z.add_comm. }
  destruct ((-1131 <=? v) && (v <=? -108)) eqn:B3.
  { apply andb_true_iff in B3 as [L U]. apply Z.leb_le in L, U.
    cbv zeta. rewrite shr8_hi, two_byte_split by lia.
    now rewrite Z.add_comm. }
  destruct ((-32768 <=? v) && (v <=? 32767)) eqn:B4.
  { unfold Encode.NUMBER16. now rewrite shr8_hi, and_255_lo. }
  unfold Encode.NUMBER32.
  rewrite !byte_at by lia. rewrite and_255_lo. reflexivity.
Qed.

(** The breakpoints, with the bytes the test suite of types.js expects. *)
Example NUMBER_at_breakpoints :
  Encode.NUMBER (-32769) = [29; 255; 255; 127; 255] /\
  Encode.NUMBER (-32768) = [28; 128; 0] /\
  Encode.NUMBER (-1132) = [28; 251; 148] /\
  Encode.NUMBER (-1131) = [254; 255] /\
  Encode.NUMBER (-108) = [251; 0] /\
  Encode.NUMBER (-107) = [32] /\
  Encode.NUMBER 0 = [139] /\
  Encode.NUMBER 107 = [246] /\
  Encode.NUMBER 108 = [247; 0] /\
  Encode.NUMBER 1131 = [250; 255] /\
  Encode.NUMBER 1132 = [28; 4; 108] /\
  Encode.NUMBER 32767 = [28; 127; 255] /\
  Encode.NUMBER 32768 = [29; 0; 0; 128; 0].
Proof. repeat split. Qed.

(** ** Contours *)

Lemma splitContours_concat pts : forall contours currentContour,
  concat (fst (splitContours pts contours currentContour))
    ++ snd (splitContours pts contours currentContour)
  = concat contours ++ currentContour ++ pts.
Proof.
  induction pts as [|pt pts IH]; intros contours currentContour; simpl.
  - now rewrite app_nil_r.
  - destruct (lastPointOfContour pt); rewrite IH.
    + rewrite concat_app. simpl. rewrite !app_nil_r, <- !app_assoc. reflexivity.
    + rewrite <- !app_assoc. reflexivity.
Qed.

(** What is left in the current contour depends on the last point only. *)
Lemma splitContours_rest pts : forall contours currentContour pt,
  last pts = Some pt ->
  (lastPointOfContour pt = true ->
   snd (splitContours pts contours currentContour) = []) /\
  (lastPointOfContour pt = false ->
   snd (splitContours pts contours currentContour) <> []).
Proof.
  induction pts as [|q pts IH]; intros contours currentContour pt Hlast.
  - discriminate.
  - destruct pts as [|q' pts'].
    + simpl in Hlast. injection Hlast as ->. simpl.
      split; intros ->; simpl; [reflexivity|].
      destruct currentContour; discriminate.
    + change (last (q :: q' :: pts')) with (last (q' :: pts')) in Hlast.
      cbn [splitContours].
      destruct (lastPointOfContour q); apply IH; assumption.
Qed.

Lemma splitContours_shape pts : forall contours currentContour,
  Forall isContour contours ->
  Forall (fun q => lastPointOfContour q = false) currentContour ->
  Forall isContour (fst (splitContours pts contours currentContour)).
Proof.
  induction pts as [|pt pts IH]; intros contours currentContour Hc Hcur; simpl.
  - assumption.
  - destruct (lastPointOfContour pt) eqn:E.
    + apply IH; [|constructor].
      apply Forall_app. split; [assumption|].
      constructor; [|constructor].
      exists currentContour, pt. auto.
    + apply IH; [assumption|].
      apply Forall_app. split; [assumption|]. constructor; [assumption|constructor].
Qed.

Lemma getContours_ok glyph pts :
  points glyph = Some pts ->
  snd (splitContours pts [] []) = [] ->
  getContours glyph = Ok (fst (splitContours pts [] [])).
Proof.
  intros Hp Hs. unfold getContours. rewrite Hp.
  destruct (splitContours pts [] []) as [contours rest]. simpl in *. subst rest.
  reflexivity.
Qed.

Lemma getContours_leftover glyph pts :
  points glyph = Some pts ->
  snd (splitContours pts [] []) <> [] ->
  getContours glyph
  = Throw (Error "There are still points left in the current contour.").
Proof.
  intros Hp Hs. unfold getContours. rewrite Hp.
  destruct (splitContours pts [] []) as [contours rest]. simpl in *.
  destruct rest; [contradiction|reflexivity].
Qed.

(** C6. Splitting at the [lastPointOfContour] flags partitions the point
    list: when the final point carries the flag, [getContours] succeeds and
    the contours, in order, are exactly the points (each contour a run of
    points closed by its one flagged point); when the final point lacks the
    flag, points are left over and [glyphToPath] throws. *)
Theorem getContours_partitions :
  forall (glyph : Glyph) (pts : list Point) (pt : Point),
    points glyph = Some pts ->
    last pts = Some pt ->
    (lastPointOfContour pt = true ->
     exists contours,
       getContours glyph = Ok contours /\
       concat contours = pts /\
       Forall isContour contours) /\
    (lastPointOfContour pt = false ->
     forall tx ty,
       glyphToPath glyph tx ty
       = Throw (Error "There are still points left in the current contour.")).
Proof.
  intros glyph pts pt Hp Hlast.
  destruct (splitContours_rest pts [] [] pt Hlast) as [Hset Hunset].
  split; intros Hflag.
  - exists (fst (splitContours pts [] [])).
    split; [apply getContours_ok; auto|].
    split.
    + pose proof (splitContours_concat pts [] []) as E.
      rewrite (Hset Hflag), app_nil_r in E. exact E.
    + apply splitContours_shape; constructor.
  - intros tx ty. unfold glyphToPath. rewrite Hp.
    rewrite (getContours_leftover glyph pts Hp (Hunset Hflag)). reflexivity.
Qed.

(** ** Outlines *)

Lemma pendingFor_after pt : pendingFor pt (pendingAfter pt).
Proof.
  unfold pendingFor, pendingAfter. destruct (onCurve pt); split; intros H;
    try discriminate; eauto.
Qed.

Lemma last_cons_default {A} (l : list A) (a d d' : A) :
  List.last (a :: l) d = List.last (a :: l) d'.
Proof.
  revert a. induction l as [|b l IH]; intros a; [reflexivity|].
  change (List.last (b :: l) d = List.last (b :: l) d'). apply IH.
Qed.

Lemma last_cons_Some {A} (l : list A) (a d : A) :
  last (a :: l) = Some (List.last (a :: l) d).
Proof.
  revert a. induction l as [|b l IH]; intros a; [reflexivity|].
  rewrite last_cons, (IH b).
  reflexivity.
Qed.

Lemma nextStep_appends tx ty prevPt pt curvePt path :
  pendingFor prevPt curvePt ->
  exists cmds,
    nextStep tx ty prevPt pt curvePt path
    = Ok (pendingAfter pt, mkPath (commands path ++ cmds)) /\
    Forall (fun c => isClose c = false) cmds.
Proof.
  intros [Hon Hoff]. unfold nextStep, pendingAfter.
  destruct (onCurve prevPt) eqn:Eprev, (onCurve pt) eqn:Ept; simpl.
  - rewrite (Hon eq_refl). eexists [_]. split; [reflexivity|repeat constructor].
  - exists []. rewrite app_nil_r. destruct path. split; [reflexivity|constructor].
  - destruct (Hoff eq_refl) as [c ->].
    eexists [_]. split; [reflexivity|repeat constructor].
  - eexists [_]. split; [reflexivity|repeat constructor].
Qed.

Lemma walk_appends tx ty rest : forall prevPt curvePt path,
  pendingFor prevPt curvePt ->
  exists cmds,
    walk tx ty prevPt rest curvePt path
    = Ok (match rest with
          | [] => curvePt
          | _ => pendingAfter (List.last rest prevPt)
          end, mkPath (commands path ++ cmds)) /\
    Forall (fun c => isClose c = false) cmds.
Proof.
  induction rest as [|pt rest IH]; intros prevPt curvePt path Hinv.
  - exists []. simpl. rewrite app_nil_r. destruct path. split; [reflexivity|constructor].
  - destruct (nextStep_appends tx ty prevPt pt curvePt path Hinv) as (cmds1 & E1 & Hc1).
    destruct (IH pt (pendingAfter pt) (mkPath (commands path ++ cmds1))
                 (pendingFor_after pt)) as (cmds2 & E2 & Hc2).
    exists (cmds1 ++ cmds2).
    change (walk tx ty prevPt (pt :: rest) curvePt path)
      with (rbind (nextStep tx ty prevPt pt curvePt path)
                  (fun r => walk tx ty pt rest (fst r) (snd r))).
    rewrite E1. cbn [rbind fst snd]. rewrite E2.
    cbn [commands]. rewrite app_assoc.
    split; [|apply Forall_app; auto].
    destruct rest as [|pt' rest']; [reflexivity|].
    change (List.last (pt :: pt' :: rest') prevPt) with (List.last (pt' :: rest') prevPt).
    now rewrite (last_cons_default rest' pt' prevPt pt).
Qed.

Lemma drawContour_appends tx ty firstPt rest path :
  exists cmds,
    drawContour tx ty (firstPt :: rest) path = Ok (mkPath (commands path ++ cmds)) /\
    drawsContour tx ty (firstPt :: rest) cmds.
Proof.
  unfold drawContour.
  set (contour := firstPt :: rest).
  set (prevPt := List.last contour firstPt).
  assert (Hfirst : exists cp,
             firstStep tx ty prevPt firstPt path
             = (cp, mkPath (commands path ++ [startCommand tx ty firstPt prevPt])) /\
             pendingFor firstPt cp /\
             (rest = [] -> cp = pendingControl contour)).
  { unfold firstStep, startCommand, pendingFor. destruct (onCurve firstPt) eqn:E.
    - eexists. split; [reflexivity|]. split; [split; [reflexivity|discriminate]|].
      intros ->. simpl. now rewrite E.
    - eexists. split; [reflexivity|]. split; [split; [discriminate|eauto]|].
      intros ->. subst prevPt contour. simpl. now rewrite E. }
  destruct Hfirst as (cp & -> & Hinv & Hsingle).
  destruct (walk_appends tx ty rest firstPt cp
              (mkPath (commands path ++ [startCommand tx ty firstPt prevPt])) Hinv)
    as (cmds & -> & Hcmds).
  cbn [rbind fst snd commands].
  set (cp' := match rest with [] => cp | _ => pendingAfter (List.last rest firstPt) end).
  assert (Hcp : cp' = pendingControl contour).
  { subst cp' contour. destruct rest as [|pt rest']; [auto|].
    unfold pendingControl, pendingAfter.
    change (List.last (firstPt :: pt :: rest') firstPt)
      with (List.last (pt :: rest') firstPt).
    reflexivity. }
  assert (Hlast : connect tx ty firstPt cp'
                    (mkPath ((commands path ++ [startCommand tx ty firstPt prevPt]) ++ cmds))
                  = mkPath (((commands path ++ [startCommand tx ty firstPt prevPt]) ++ cmds)
                            ++ [closingSegment tx ty firstPt cp'])).
  { unfold connect, closingSegment. destruct cp' as [q|]; reflexivity. }
  rewrite Hlast, Hcp.
  exists (startCommand tx ty firstPt prevPt :: cmds
          ++ [closingSegment tx ty firstPt (pendingControl contour)]).
  split.
  - f_equal. f_equal. rewrite <- !app_assoc. reflexivity.
  - exists firstPt, rest, cmds. split; [reflexivity|]. split; [reflexivity|].
    constructor.
    + unfold startCommand. destruct (onCurve firstPt); reflexivity.
    + apply Forall_app. split; [assumption|]. constructor; [|constructor].
      unfold closingSegment. destruct (pendingControl contour); reflexivity.
Qed.

(** The closing segment is a quadratic curve exactly when the contour's last
    point is off the curve. *)
Lemma closingSegment_kind tx ty firstPt rest :
  isCurve (closingSegment tx ty firstPt (pendingControl (firstPt :: rest)))
  = endsOffCurve (firstPt :: rest).
Proof.
  unfold endsOffCurve. rewrite (last_cons_Some rest firstPt firstPt).
  destruct rest as [|pt rest'].
  - simpl. destruct (onCurve firstPt); reflexivity.
  - unfold pendingControl.
    destruct (onCurve (List.last (firstPt :: pt :: rest') firstPt)); reflexivity.
Qed.

Lemma drawsContour_kind tx ty contour cmds :
  drawsContour tx ty contour cmds -> closesByKind contour cmds.
Proof.
  intros (firstPt & rest & middle & -> & -> & _).
  eexists. split.
  - rewrite app_comm_cons. apply last_snoc.
  - pose proof (closingSegment_kind tx ty firstPt rest) as Hk.
    destruct (endsOffCurve (firstPt :: rest)); [exact Hk|].
    unfold closingSegment in *.
    destruct (pendingControl (firstPt :: rest)); [discriminate|eauto].
Qed.

Lemma drawContours_appends tx ty contours : forall path,
  Forall isContour contours ->
  exists segments,
    foldM (drawContour tx ty) contours path
    = Ok (mkPath (commands path ++ concat segments)) /\
    Forall2 (drawsContour tx ty) contours segments.
Proof.
  induction contours as [|contour contours IH]; intros path Hc; simpl.
  - exists []. simpl. rewrite app_nil_r. destruct path. split; [reflexivity|constructor].
  - apply Forall_cons in Hc as [(body & pt & Hshape & _) Hc].
    assert (Hne : exists firstPt rest, contour = firstPt :: rest).
    { subst contour. destruct body; simpl; eauto. }
    destruct Hne as (firstPt & rest & ->).
    destruct (drawContour_appends tx ty firstPt rest path) as (cmds & -> & Hd).
    simpl.
    destruct (IH (mkPath (commands path ++ cmds)) Hc) as (segments & -> & Hs).
    exists (cmds :: segments). simpl. rewrite app_assoc.
    split; [reflexivity|]. constructor; assumption.
Qed.

Lemma filter_isClose_segments tx ty contours segments :
  Forall2 (drawsContour tx ty) contours segments ->
  List.filter isClose (concat segments) = [].
Proof.
  induction 1 as [|contour cmds contours segments Hd _ IH]; simpl; [reflexivity|].
  rewrite List.filter_app, IH, app_nil_r.
  destruct Hd as (_ & _ & _ & _ & _ & Hall).
  clear -Hall. induction Hall as [|c cmds Hc _ IH']; simpl; [reflexivity|].
  now rewrite Hc.
Qed.

Lemma wellFormedPoints_split pts :
  wellFormedPoints pts = true ->
  snd (splitContours pts [] []) = [].
Proof.
  unfold wellFormedPoints. destruct (last pts) as [pt|] eqn:E.
  - intros Hflag. now apply (splitContours_rest pts [] [] pt E).
  - apply last_None in E. subst pts. reflexivity.
Qed.

Lemma getContours_partitions_witness :
  (exists contours,
     getContours twoContours = Ok contours /\
     concat contours = [mkPoint 0 0 true false; mkPoint 10 0 true false;
                        mkPoint 0 10 true true;
                        mkPoint 20 20 true false; mkPoint 30 20 false true] /\
     Forall isContour contours) /\
  glyphToPath leftoverPoints None None
  = Throw (Error "There are still points left in the current contour.").
Proof.
  split.
  - apply (proj1 (getContours_partitions twoContours _ (mkPoint 30 20 false true)
                    eq_refl eq_refl)).
    reflexivity.
  - apply (proj2 (getContours_partitions leftoverPoints _ (mkPoint 30 20 false false)
                    eq_refl eq_refl)).
    reflexivity.
Defined.

(** C5, as the code has it. For every glyph with a well-formed point list,
    [glyphToPath] draws the contours one after the other, each started by
    the move to its start and ended by the segment back to its first point,
    none holding a close command, and then appends one close command for the
    whole path: whatever the number of contours, the path holds exactly one
    close command, its last.  The segment back is the quadratic curve
    through the pending control point when the contour's last point is off
    the curve (that point, or for a contour of one point the midpoint taken
    at the start), and the straight line when it is on the curve. *)
Theorem glyphToPath_closes_once :
  forall (glyph : Glyph) (pts : list Point) (tx ty : option Q),
    points glyph = Some pts ->
    wellFormedPoints pts = true ->
    exists contours segments,
      getContours glyph = Ok contours /\
      Forall2 (drawsContour (default 0%Q tx) (default 0%Q ty)) contours segments /\
      Forall2 closesByKind contours segments /\
      glyphToPath glyph tx ty = Ok (mkPath (concat segments ++ [CmdZ])) /\
      closeCount (mkPath (concat segments ++ [CmdZ])) = 1%nat.
Proof.
  intros glyph pts tx ty Hp Hwf.
  pose proof (wellFormedPoints_split pts Hwf) as Hrest.
  pose proof (getContours_ok glyph pts Hp Hrest) as Hget.
  set (contours := fst (splitContours pts [] [])) in *.
  assert (Hshape : Forall isContour contours)
    by (apply splitContours_shape; constructor).
  destruct (drawContours_appends (default 0%Q tx) (default 0%Q ty) contours newPath Hshape)
    as (segments & Hdraw & Hsegs).
  exists contours, segments. repeat split; try assumption.
  - eapply Forall2_impl; [exact Hsegs|]. intros contour cmds. apply drawsContour_kind.
  - unfold glyphToPath. rewrite Hp, Hget. simpl. rewrite Hdraw. reflexivity.
  - unfold closeCount. simpl. rewrite List.filter_app.
    rewrite (filter_isClose_segments _ _ _ _ Hsegs). reflexivity.
Qed.

(** An off-curve point becomes the control point of a quadratic curve. *)
Example glyphToPath_quadratic :
  glyphToPath quadraticGlyph None None
  = Ok (mkPath [CmdM 0 0; CmdQ 10 (-10) 20 0; CmdL 0 0; CmdZ]).
Proof. reflexivity. Qed.

Lemma glyphToPath_closes_once_witness :
  exists contours segments,
    getContours twoContours = Ok contours /\
    Forall2 (drawsContour 0 0) contours segments /\
    Forall2 closesByKind contours segments /\
    glyphToPath twoContours None None = Ok (mkPath (concat segments ++ [CmdZ])) /\
    closeCount (mkPath (concat segments ++ [CmdZ])) = 1%nat.
Proof.
  apply (glyphToPath_closes_once twoContours _ None None eq_refl).
  reflexivity.
Defined.

(** C5 as stated fails: a glyph with two contours gets one close command,
    not two. *)
Lemma two_contours_one_close :
  exists contours path,
    getContours twoContours = Ok contours /\
    List.length contours = 2%nat /\
    glyphToPath twoContours None None = Ok path /\
    closeCount path = 1%nat /\
    closeCount path <> List.length contours.
Proof.
  eexists _, _.
  split; [vm_compute; reflexivity|].
  split; [reflexivity|].
  split; [vm_compute; reflexivity|].
  split; [reflexivity|discriminate].
Qed.

(** ** Composite glyphs: the second pass *)


(** A relation that every step respects is respected by the fold. *)
Lemma foldM_preserves {A B} (R : A -> A -> Prop) (f : B -> A -> result A) l :
  (forall a, R a a) ->
  (forall a1 a2 a3, R a1 a2 -> R a2 a3 -> R a1 a3) ->
  (forall b a a', List.In b l -> f b a = Ok a' -> R a a') ->
  forall a a', foldM f l a = Ok a' -> R a a'.
Proof.
  intros Hrefl Htrans. induction l as [|b l IH]; intros Hstep a a' H; simpl in H.
  - injection H as ->. apply Hrefl.
  - destruct (f b a) as [a1| |] eqn:E; simpl in H; try discriminate.
    apply (Htrans a a1 a').
    + apply (Hstep b); [left; reflexivity|assumption].
    + apply IH; [|assumption]. intros b' x x' Hin. apply Hstep. right. assumption.
Qed.

Lemma grows_refl g : grows g g.
Proof. left. reflexivity. Qed.

Lemma grows_trans g1 g2 g3 : grows g1 g2 -> grows g2 g3 -> grows g1 g3.
Proof.
  intros [->|(pts & extra & Hp & ->)] H23; [assumption|].
  destruct H23 as [->|(pts' & extra' & Hp' & ->)].
  - right. eauto.
  - right. simpl in Hp'. injection Hp' as <-.
    exists pts, (extra ++ extra'). split; [assumption|].
    unfold setPoints. simpl. rewrite app_assoc. reflexivity.
Qed.




Lemma evolvesAt_refl i gl : evolvesAt i gl gl.
Proof. intros j g H. exists g. auto using grows_refl. Qed.

Lemma evolvesAt_trans i gl1 gl2 gl3 :
  evolvesAt i gl1 gl2 -> evolvesAt i gl2 gl3 -> evolvesAt i gl1 gl3.
Proof.
  intros H12 H23 j g1 H1.
  destruct (H12 j g1 H1) as (g2 & H2 & G12 & E12).
  destruct (H23 j g2 H2) as (g3 & H3 & G23 & E23).
  exists g3. split; [assumption|]. split; [eapply grows_trans; eassumption|].
  intros Hne. rewrite (E23 Hne). auto.
Qed.

Lemma evolves_refl gl : evolves gl gl.
Proof. intros j g H. exists g. auto using grows_refl. Qed.

Lemma evolves_trans gl1 gl2 gl3 : evolves gl1 gl2 -> evolves gl2 gl3 -> evolves gl1 gl3.
Proof.
  intros H12 H23 j g1 H1.
  destruct (H12 j g1 H1) as (g2 & H2 & G12 & E12).
  destruct (H23 j g2 H2) as (g3 & H3 & G23 & E23).
  exists g3. split; [assumption|]. split; [eapply grows_trans; eassumption|].
  intros Hs. specialize (E12 Hs). subst g2. auto.
Qed.

(** One component: only slot [i] changes, and if the component glyph has
    points, their translations are now among the points of slot [i]. *)
Lemma absorbComponent_spec i component gl gl' :
  absorbComponent i component gl = Ok gl' ->
  evolvesAt i gl gl' /\
  (forall cg cpts pt,
      nthZ gl (glyphIndex component) = Some cg ->
      points cg = Some cpts -> List.In pt cpts ->
      exists g' pts', gl' !! i = Some g' /\ points g' = Some pts' /\
                      List.In (translate (dx component) (dy component) pt) pts').
Proof.
  unfold absorbComponent. intros H.
  destruct (nthZ gl (glyphIndex component)) as [cg|] eqn:Ecg; [|discriminate].
  destruct (points cg) as [cpts|] eqn:Ecp.
  2:{ injection H as <-. split; [apply evolvesAt_refl|].
      intros cg' cpts' pt Hcg'. injection Hcg' as <-. congruence. }
  destruct (gl !! i) as [g|] eqn:Eg; [|discriminate].
  destruct (points g) as [pts|] eqn:Ep; [|discriminate].
  injection H as <-.
  pose proof (lookup_lt_Some _ _ _ Eg) as Hlt.
  split.
  - intros j gj Hj. destruct (decide (j = i)) as [->|Hne].
    + rewrite list_lookup_insert_eq by assumption.
      rewrite Eg in Hj. injection Hj as <-.
      eexists. split; [reflexivity|]. split; [|congruence].
      right. eauto.
    + rewrite list_lookup_insert_ne by congruence.
      exists gj. auto using grows_refl.
  - intros cg' cpts' pt Hcg' Hcp' Hin. injection Hcg' as <-.
    rewrite Ecp in Hcp'. injection Hcp' as <-.
    rewrite list_lookup_insert_eq by assumption.
    eexists _, _. split; [reflexivity|]. split; [reflexivity|].
    apply in_or_app. right. unfold transformPoints.
    apply (in_map (fun pt => mkPoint (x pt + dx component) (y pt + dy component)
                                     (onCurve pt) (lastPointOfContour pt))).
    assumption.
Qed.

Lemma nthZ_Some {A} (l : list A) k a :
  nthZ l k = Some a -> 0 <= k /\ l !! Z.to_nat k = Some a.
Proof.
  unfold nthZ. destruct (Z.ltb_spec k 0); [discriminate|]. auto.
Qed.

Lemma nthZ_of_nat {A} (l : list A) (n : nat) : nthZ l (Z.of_nat n) = l !! n.
Proof.
  unfold nthZ. destruct (Z.ltb_spec (Z.of_nat n) 0); [lia|].
  now rewrite Nat2Z.id.
Qed.


Lemma absorbAll_evolvesAt i cs gl gl' :
  foldM (absorbComponent i) cs gl = Ok gl' -> evolvesAt i gl gl'.
Proof.
  apply (foldM_preserves (evolvesAt i)).
  - apply evolvesAt_refl.
  - apply evolvesAt_trans.
  - intros c a a' _ H. apply (absorbComponent_spec i c a a' H).
Qed.

Lemma resolveGlyph_evolves i gl gl' :
  resolveGlyph i gl = Ok gl' -> evolves gl gl'.
Proof.
  unfold resolveGlyph. intros H.
  destruct (gl !! i) as [g|] eqn:Eg; [|injection H as <-; apply evolves_refl].
  destruct (isComposite g) eqn:Ec; [|injection H as <-; apply evolves_refl].
  destruct (components g) as [cs|]; [|discriminate].
  apply absorbAll_evolvesAt in H.
  intros j gj Hj. destruct (H j gj Hj) as (g' & Hg' & Hgrow & Hsame).
  exists g'. split; [assumption|]. split; [assumption|].
  intros Hsimple. apply Hsame. intros ->. congruence.
Qed.

Lemma resolveAll_evolves l gl gl' :
  foldM resolveGlyph l gl = Ok gl' -> evolves gl gl'.
Proof.
  apply (foldM_preserves evolves).
  - apply evolves_refl.
  - apply evolves_trans.
  - intros i a a' _ H. apply (resolveGlyph_evolves i a a' H).
Qed.





(** ** The reader *)

Lemma bind_Ok {A B} (m : P A) (k : A -> P B) p r :
  bind m k p = Ok r -> exists a p', m p = Ok (a, p') /\ k a p' = Ok r.
Proof.
  unfold bind. destruct (m p) as [[a p']| |]; try discriminate. eauto.
Qed.

Lemma ret_Ok {A} (a : A) p r : ret a p = Ok r -> r = (a, p).
Proof. unfold ret. congruence. Qed.

Lemma read_Ok get width p v p' :
  read get width p = Ok (v, p') ->
  get (dataView p) (offset p + relativeOffset p) = Ok v /\
  p' = mkParser (dataView p) (offset p) (relativeOffset p + width).
Proof.
  unfold read. destruct (get _ _) as [v0| |]; simpl; try discriminate.
  intros H. injection H as -> <-. auto.
Qed.

Lemma getUint8_range dataView offset v :
  DataView.getUint8 dataView offset = Ok v -> 0 <= v <= 255.
Proof.
  unfold DataView.getUint8. destruct (nthZ dataView offset) as [b|]; [|discriminate].
  intros H. injection H as <-.
  pose proof (Byte.to_N_bounded b). lia.
Qed.

Lemma parseByte_range p v p' : parseByte p = Ok (v, p') -> 0 <= v <= 255.
Proof.
  intros H. apply read_Ok in H as [H _]. eapply getUint8_range; eassumption.
Qed.

(** ** Composite components *)

Lemma parseComponents_byte_args fuel : forall p parsed p',
  parseComponents fuel p = Ok (parsed, p') ->
  Forall (fun fc => JS.isBitSet (fst fc) 0 = false ->
                    0 <= dx (snd fc) <= 255 /\ 0 <= dy (snd fc) <= 255) parsed.
Proof.
  induction fuel as [|fuel IH]; intros p parsed p' H; [discriminate|].
  cbn [parseComponents] in H.
  apply bind_Ok in H as (flags & p1 & _ & H).
  apply bind_Ok in H as (gi & p2 & _ & H).
  apply bind_Ok in H as (arg1 & p3 & H1 & H).
  apply bind_Ok in H as (arg2 & p4 & H2 & H).
  apply bind_Ok in H as (u & p5 & _ & H).
  assert (Hargs : JS.isBitSet flags 0 = false ->
                  0 <= arg1 <= 255 /\ 0 <= arg2 <= 255).
  { intros Hbit. rewrite Hbit in H1, H2.
    split; eapply parseByte_range; eassumption. }
  destruct (JS.isBitSet flags 5).
  - apply bind_Ok in H as (rest & p6 & Hrest & H).
    apply ret_Ok in H. injection H as -> ->.
    constructor; [exact Hargs|]. eapply IH; eassumption.
  - apply ret_Ok in H. injection H as -> ->.
    constructor; [exact Hargs|constructor].
Qed.

(** What [parseGlyph] returns, read off its header: the contour count and
    the bounding box are the five shorts at [start]; a count of 0 gives an
    empty point list; a composite glyph has the components of the loop. *)
Lemma parseGlyph_inv data start index g :
  parseGlyph data start index = Ok g ->
  DataView.getInt16 data start = Ok (numberOfContours g) /\
  DataView.getInt16 data (start + 2) = Ok (xMin g) /\
  DataView.getInt16 data (start + 4) = Ok (yMin g) /\
  DataView.getInt16 data (start + 6) = Ok (xMax g) /\
  DataView.getInt16 data (start + 8) = Ok (yMax g) /\
  OpenType.index g = index /\
  (numberOfContours g = 0 ->
   points g = Some [] /\ isComposite g = false) /\
  (isComposite g = true ->
   exists parsed p',
     parseComponents (S (List.length data)) (mkParser data start 10) = Ok (parsed, p') /\
     components g = Some (List.map snd parsed)).
Proof.
  unfold parseGlyph. intros H.
  destruct (parseGlyphBody index (newParser data start)) as [[g0 p0]| |] eqn:E;
    try discriminate.
  simpl in H. injection H as <-.
  unfold parseGlyphBody in E.
  apply bind_Ok in E as (n & p1 & R1 & E). apply read_Ok in R1 as [R1 ->].
  apply bind_Ok in E as (v1 & p2 & R2 & E). apply read_Ok in R2 as [R2 ->].
  apply bind_Ok in E as (v2 & p3 & R3 & E). apply read_Ok in R3 as [R3 ->].
  apply bind_Ok in E as (v3 & p4 & R4 & E). apply read_Ok in R4 as [R4 ->].
  apply bind_Ok in E as (v4 & p5 & R5 & E). apply read_Ok in R5 as [R5 ->].
  cbn [dataView offset relativeOffset newParser] in *.
  rewrite Z.add_0_r in R1.
  change (0 + 2) with 2 in *. change (2 + 2) with 4 in *.
  change (4 + 2) with 6 in *. change (6 + 2) with 8 in *.
  change (8 + 2) with 10 in *.
  destruct (Z.ltb_spec 0 n) as [Hpos|Hnpos].
  - apply bind_Ok in E as (epi & q1 & _ & E).
    apply bind_Ok in E as (il & q2 & _ & E).
    apply bind_Ok in E as (ins & q3 & _ & E).
    apply bind_Ok in E as (flags & q4 & _ & E).
    apply bind_Ok in E as (u & q5 & _ & E).
    apply bind_Ok in E as (pts & q6 & _ & E).
    apply ret_Ok in E. injection E as -> ->. simpl.
    repeat split; try assumption; try lia; discriminate.
  - destruct (Z.eqb_spec n 0) as [->|Hne].
    + apply ret_Ok in E. injection E as -> ->. simpl.
      repeat split; try assumption; discriminate.
    + apply bind_Ok in E as (parsed & q1 & Hc & E).
      apply ret_Ok in E. injection E as -> ->. simpl.
      repeat split; try assumption; try lia.
      intros _. exists parsed, q1. split; [exact Hc|reflexivity].
Qed.

(** A flag with bit 3 set stands for itself and its repetitions. *)
Example parseGlyph_repeated_flags :
  parseGlyph repeatedFlagsData 0 5
  = Ok (mkGlyph 5 1 1 4 6 15 (Some [2]) (Some [])
                (Some [mkPoint 1 4 true false; mkPoint 3 9 true false;
                       mkPoint 6 15 true true]) false None).
Proof. reflexivity. Qed.

(** C10. When the arguments of a component are byte-sized (bit 0 of its
    flag word clear), [parseGlyph] reads [dx] and [dy] as unsigned bytes:
    for every component of a decoded composite glyph, listed by the loop
    next to the flag word it was read with, both lie in 0..255. *)
Theorem byte_sized_component_offsets_are_unsigned :
  forall (data : DataView.t) (start index : Z) (glyph : Glyph),
    parseGlyph data start index = Ok glyph ->
    isComposite glyph = true ->
    exists parsed p',
      parseComponents (S (List.length data)) (mkParser data start 10) = Ok (parsed, p') /\
      components glyph = Some (List.map snd parsed) /\
      Forall (fun fc => JS.isBitSet (fst fc) 0 = false ->
                        0 <= dx (snd fc) <= 255 /\ 0 <= dy (snd fc) <= 255) parsed.
Proof.
  intros data start index glyph H Hc.
  destruct (parseGlyph_inv data start index glyph H)
    as (_ & _ & _ & _ & _ & _ & _ & Hcomp).
  destruct (Hcomp Hc) as (parsed & p' & Hloop & Hcs).
  exists parsed, p'. repeat split; try assumption.
  eapply parseComponents_byte_args; eassumption.
Qed.

Lemma byte_sized_component_offsets_are_unsigned_witness :
  exists parsed p',
    parseComponents 17 (mkParser highByteArgsData 0 10) = Ok (parsed, p') /\
    Some [mkComponent 3 246 236] = Some (List.map snd parsed) /\
    Forall (fun fc => JS.isBitSet (fst fc) 0 = false ->
                      0 <= dx (snd fc) <= 255 /\ 0 <= dy (snd fc) <= 255) parsed.
Proof.
  apply (byte_sized_component_offsets_are_unsigned highByteArgsData 0 7
           (mkGlyph 7 (-1) 0 0 0 0 None None (Some []) true
                    (Some [mkComponent 3 246 236]))).
  - reflexivity.
  - reflexivity.
Defined.

(** ** The loop budgets are never exhausted *)

Lemma bind_bounded {A B} (m : P A) (k : A -> P B) p :
  bounded (m p) ->
  (forall a p', m p = Ok (a, p') -> bounded (k a p')) ->
  bounded (bind m k p).
Proof.
  unfold bounded, bind. intros Hm Hk.
  destruct (m p) as [[a p']| |]; [apply Hk; reflexivity|discriminate|contradiction].
Qed.

Lemma getUint8_bounded dv o : bounded (DataView.getUint8 dv o).
Proof. unfold bounded, DataView.getUint8. destruct (nthZ dv o); discriminate. Qed.

Lemma getUint16_bounded dv o : bounded (DataView.getUint16 dv o).
Proof.
  unfold bounded, DataView.getUint16.
  pose proof (getUint8_bounded dv o). pose proof (getUint8_bounded dv (o + 1)).
  destruct (DataView.getUint8 dv o); simpl; try congruence.
  destruct (DataView.getUint8 dv (o + 1)); simpl; congruence.
Qed.

Lemma getInt16_bounded dv o : bounded (DataView.getInt16 dv o).
Proof.
  unfold bounded, DataView.getInt16. pose proof (getUint16_bounded dv o).
  destruct (DataView.getUint16 dv o); simpl; congruence.
Qed.

Lemma read_bounded get width p :
  (forall dv o, bounded (get dv o)) -> bounded (read get width p).
Proof.
  unfold bounded, read. intros Hg. specialize (Hg (dataView p) (offset p + relativeOffset p)).
  destruct (get _ _); simpl; congruence.
Qed.

Lemma parseByte_bounded p : bounded (parseByte p).
Proof. apply read_bounded, getUint8_bounded. Qed.
Lemma parseUShort_bounded p : bounded (parseUShort p).
Proof. apply read_bounded, getUint16_bounded. Qed.
Lemma parseShort_bounded p : bounded (parseShort p).
Proof. apply read_bounded, getInt16_bounded. Qed.

Lemma ret_bounded {A} (a : A) p : bounded (ret a p).
Proof. discriminate. Qed.

Ltac bounded_step :=
  first [ apply ret_bounded
        | apply parseByte_bounded | apply parseUShort_bounded | apply parseShort_bounded
        | apply bind_bounded; [|intros ? ? ?] ].

Lemma times_bounded {A} n (m : P A) :
  (forall p, bounded (m p)) -> forall p, bounded (times n m p).
Proof.
  intros Hm. induction n as [|n IH]; intros p; simpl.
  - apply ret_bounded.
  - apply bind_bounded; [apply Hm|]. intros a p1 _.
    apply bind_bounded; [apply IH|]. intros l p2 _. apply ret_bounded.
Qed.

Lemma parseGlyphCoordinate_bounded flag prev b1 b2 p :
  bounded (_parseGlyphCoordinate flag prev b1 b2 p).
Proof.
  unfold _parseGlyphCoordinate.
  destruct (JS.isBitSet flag b1); [repeat bounded_step|].
  destruct (JS.isBitSet flag b2); repeat bounded_step.
Qed.

Lemma parseCoordinates_bounded flags : forall prev b1 b2 p,
  bounded (parseCoordinates flags prev b1 b2 p).
Proof.
  induction flags as [|flag flags IH]; intros prev b1 b2 p; simpl.
  - apply ret_bounded.
  - apply bind_bounded; [apply parseGlyphCoordinate_bounded|]. intros v p1 _.
    apply bind_bounded; [apply IH|]. intros vs p2 _. apply ret_bounded.
Qed.

Lemma parseFlags_bounded fuel n : forall i flags p,
  n - i <= Z.of_nat fuel -> bounded (parseFlags fuel n i flags p).
Proof.
  induction fuel as [|fuel IH]; intros i flags p Hfuel; cbn [parseFlags].
  - destruct (Z.ltb_spec i n); [lia|apply ret_bounded].
  - destruct (Z.ltb_spec i n); [|apply ret_bounded].
    apply bind_bounded; [apply parseByte_bounded|]. intros flag p1 _.
    destruct (JS.isBitSet flag 3).
    + apply bind_bounded; [apply parseByte_bounded|]. intros rc p2 Hrc.
      apply parseByte_range in Hrc. apply IH. lia.
    + apply IH. lia.
Qed.

Lemma read_position get width p v p' :
  read get width p = Ok (v, p') ->
  dataView p' = dataView p /\ position p' = position p + width.
Proof.
  intros H. apply read_Ok in H as [_ ->]. unfold position.
  cbn [dataView offset relativeOffset]. split; [reflexivity|lia].
Qed.

Lemma getUint8_inside dv o v :
  DataView.getUint8 dv o = Ok v -> 0 <= o < Z.of_nat (List.length dv).
Proof.
  unfold DataView.getUint8. destruct (nthZ dv o) as [b|] eqn:E; [|discriminate].
  intros _. apply nthZ_Some in E as [H0 E]. apply lookup_lt_Some in E. lia.
Qed.

Lemma parseUShort_inside p v p' :
  parseUShort p = Ok (v, p') ->
  dataView p' = dataView p /\ 0 <= position p /\
  position p' = position p + 2 /\ position p' <= Z.of_nat (List.length (dataView p)).
Proof.
  intros H. destruct (read_position _ _ _ _ _ H) as [Hd Hp].
  apply read_Ok in H as [H _]. unfold DataView.getUint16 in H.
  destruct (DataView.getUint8 _ (offset p + relativeOffset p)) eqn:E0; try discriminate.
  simpl in H.
  destruct (DataView.getUint8 _ (offset p + relativeOffset p + 1)) eqn:E1; try discriminate.
  apply getUint8_inside in E0, E1. unfold position in *.
  split; [assumption|]. lia.
Qed.

Lemma parseComponentScale_position flags p u p' :
  parseComponentScale flags p = Ok (u, p') ->
  dataView p' = dataView p /\ position p <= position p'.
Proof.
  unfold parseComponentScale. intros H.
  repeat match type of H with
         | (if ?b then _ else _) _ = _ => destruct b
         | bind _ _ _ = Ok _ =>
             let R := fresh "R" in
             apply bind_Ok in H as (? & ? & R & H);
             apply read_position in R as [? ?]
         | ret _ _ = Ok _ => apply ret_Ok in H; injection H as _ ->
         end;
    split; try congruence; lia.
Qed.

Lemma parseComponents_bounded fuel : forall p,
  (0 < fuel)%nat ->
  (0 <= position p -> Z.of_nat (List.length (dataView p)) - position p < Z.of_nat fuel) ->
  bounded (parseComponents fuel p).
Proof.
  induction fuel as [|fuel IH]; intros p Hpos Hfuel; [lia|].
  cbn [parseComponents].
  apply bind_bounded; [apply parseUShort_bounded|]. intros flags p1 R1.
  apply parseUShort_inside in R1 as (D1 & P0 & P1 & L1).
  apply bind_bounded; [apply parseUShort_bounded|]. intros gi p2 R2.
  apply parseUShort_inside in R2 as (D2 & _ & P2 & L2).
  apply bind_bounded.
  { destruct (JS.isBitSet flags 0); [apply parseShort_bounded|apply parseByte_bounded]. }
  intros arg1 p3 R3.
  assert (D3 : dataView p3 = dataView p2 /\ position p2 <= position p3).
  { destruct (JS.isBitSet flags 0); apply read_position in R3 as [? ?]; split; auto; lia. }
  apply bind_bounded.
  { destruct (JS.isBitSet flags 0); [apply parseShort_bounded|apply parseByte_bounded]. }
  intros arg2 p4 R4.
  assert (D4 : dataView p4 = dataView p3 /\ position p3 <= position p4).
  { destruct (JS.isBitSet flags 0); apply read_position in R4 as [? ?]; split; auto; lia. }
  apply bind_bounded.
  { unfold parseComponentScale.
    repeat match goal with
           | |- bounded ((if ?b then _ else _) _) => destruct b
           | |- _ => bounded_step
           end. }
  intros u p5 R5. apply parseComponentScale_position in R5 as [D5 P5].
  destruct (JS.isBitSet flags 5); [|apply ret_bounded].
  apply bind_bounded; [|intros; apply ret_bounded].
  destruct D3 as [D3 P3], D4 as [D4 P4].
  assert (Hd : dataView p5 = dataView p) by congruence.
  specialize (Hfuel P0).
  apply IH; rewrite ?Hd; lia.
Qed.

Lemma parseGlyph_bounded data start index : bounded (parseGlyph data start index).
Proof.
  unfold parseGlyph.
  assert (Hb : bounded (parseGlyphBody index (newParser data start))).
  { unfold parseGlyphBody.
    apply bind_bounded; [apply parseShort_bounded|]. intros n p1 R1.
    apply read_Ok in R1 as [R1 ->].
    pose proof R1 as Hin. unfold DataView.getInt16, DataView.getUint16 in Hin.
    destruct (DataView.getUint8 _ _) eqn:E0 in Hin; try discriminate.
    apply getUint8_inside in E0. clear Hin.
    do 4 (apply bind_bounded; [apply parseShort_bounded|];
          let R := fresh "R" in intros ? ? R; apply read_Ok in R as [_ ->]).
    cbn [dataView offset relativeOffset newParser] in *.
    destruct (0 <? n).
    - apply bind_bounded; [apply times_bounded, parseUShort_bounded|]. intros epi q1 _.
      apply bind_bounded; [apply parseUShort_bounded|]. intros il q2 _.
      apply bind_bounded; [apply times_bounded, parseByte_bounded|]. intros ins q3 _.
      apply bind_bounded; [apply parseFlags_bounded; lia|]. intros flags q4 _.
      apply bind_bounded.
      { unfold lift, checkArgument. destruct (_ =? _); discriminate. }
      intros u q5 _.
      apply bind_bounded; [|intros; apply ret_bounded].
      destruct (0 <? Z.of_nat (List.length epi)); [|apply ret_bounded].
      destruct (0 <? _); [|apply ret_bounded].
      apply bind_bounded; [apply parseCoordinates_bounded|]. intros xs q6 _.
      apply bind_bounded; [apply parseCoordinates_bounded|]. intros ys q7 _.
      apply ret_bounded.
    - destruct (n =? 0); [apply ret_bounded|].
      apply bind_bounded; [|intros; apply ret_bounded].
      apply parseComponents_bounded; [lia|].
      unfold position. cbn [dataView offset relativeOffset]. lia. }
  unfold bounded in *.
  destruct (parseGlyphBody index (newParser data start)); simpl; congruence.
Qed.

Lemma rbind_bounded {A B} (r : result A) (k : A -> result B) :
  bounded r -> (forall a, r = Ok a -> bounded (k a)) -> bounded (rbind r k).
Proof.
  unfold bounded. intros Hr Hk. destruct r; simpl; [apply Hk; reflexivity|discriminate|contradiction].
Qed.

Lemma foldM_bounded {A B} (f : B -> A -> result A) l :
  (forall b a, bounded (f b a)) -> forall a, bounded (foldM f l a).
Proof.
  intros Hf. induction l as [|b l IH]; intros a; simpl; [discriminate|].
  apply rbind_bounded; auto.
Qed.

(** [parseGlyfTable] returns or throws: its loops end within the budgets of
    the model. *)
Lemma parseGlyfTable_bounded data start loca : bounded (parseGlyfTable data start loca).
Proof.
  unfold parseGlyfTable. apply rbind_bounded.
  - generalize 0 as i. induction loca as [|o loca IH]; intros i; [discriminate|].
    destruct loca as [|o' loca']; [discriminate|].
    cbn [parseGlyphs].
    apply rbind_bounded.
    + destruct (negb (o =? o')); [apply parseGlyph_bounded|discriminate].
    + intros g _. apply rbind_bounded; [apply IH|]. discriminate.
  - intros gl _. unfold resolveComposites. apply foldM_bounded.
    intros i a. unfold resolveGlyph.
    destruct (a !! i) as [g|]; [|discriminate].
    destruct (isComposite g); [|discriminate].
    destruct (components g); [|discriminate].
    apply foldM_bounded. intros c b. unfold absorbComponent.
    repeat match goal with
           | |- bounded (match ?e with _ => _ end) => destruct e
           end; discriminate.
Qed.

(** ** Glyphs without contours *)

Lemma parseGlyphs_lookup data start loca : forall i0 gl,
  parseGlyphs data start i0 loca = Ok gl ->
  forall (i : nat) o o', loca !! i = Some o -> loca !! S i = Some o' ->
    exists g, gl !! i = Some g /\
      (o = o' -> g = emptyGlyph (i0 + Z.of_nat i)) /\
      (o <> o' -> parseGlyph data (start + o) (i0 + Z.of_nat i) = Ok g).
Proof.
  induction loca as [|a loca IH]; intros i0 gl H i o o' Ho Ho'; [discriminate|].
  destruct loca as [|b loca']; [destruct i; discriminate|].
  change (parseGlyphs data start i0 (a :: b :: loca'))
    with (rbind (if negb (a =? b) then parseGlyph data (start + a) i0
                 else Ok (emptyGlyph i0))
                (fun glyph => rbind (parseGlyphs data start (i0 + 1) (b :: loca'))
                                    (fun glyphs => Ok (glyph :: glyphs)))) in H.
  destruct (if negb (a =? b) then parseGlyph data (start + a) i0 else Ok (emptyGlyph i0))
    as [g0| |] eqn:Eg; try discriminate.
  cbn [rbind] in H.
  destruct (parseGlyphs data start (i0 + 1) (b :: loca')) as [rest| |] eqn:Er;
    try discriminate.
  cbn [rbind] in H. injection H as <-.
  destruct i as [|i].
  - cbn in Ho, Ho'. injection Ho as ->. injection Ho' as ->.
    exists g0. rewrite Z.add_0_r. split; [reflexivity|].
    destruct (Z.eqb_spec o o') as [Heq|Hne]; simpl in Eg.
    + injection Eg as <-. split; [reflexivity|contradiction].
    + split; [contradiction|auto].
  - destruct (IH (i0 + 1) rest Er i o o' Ho Ho') as (g & Hg & He & Hp).
    exists g. replace (i0 + Z.of_nat (S i)) with (i0 + 1 + Z.of_nat i) by lia.
    auto.
Qed.

Lemma grows_numberOfContours g g' : grows g g' -> numberOfContours g' = numberOfContours g.
Proof. intros [->|(? & ? & _ & ->)]; reflexivity. Qed.

Lemma glyphToPath_no_points glyph tx ty :
  points glyph = None -> glyphToPath glyph tx ty = Ok (mkPath []).
Proof. intros H. unfold glyphToPath. now rewrite H. Qed.

Lemma glyphToPath_empty_points glyph tx ty :
  points glyph = Some [] -> glyphToPath glyph tx ty = Ok (mkPath [CmdZ]).
Proof. intros H. unfold glyphToPath, getContours. now rewrite H. Qed.

(** C4, as the code has it. A glyph of [parseGlyfTable] without contours is
    one of two things.  For a zero-length span of [loca] it has contour
    count 0, no point list at all and the bounding box (0,0,0,0), and
    [glyphToPath] gives a path with no command.  For a glyph record whose
    header declares 0 contours it has an empty point list and the bounding
    box stored in the header, and [glyphToPath] gives a path with one
    command, the close command. *)
Theorem contourless_glyphs :
  forall (data : DataView.t) (start : Z) (loca : list Z) (resolved : list Glyph)
         (i : nat) (offset nextOffset : Z),
    parseGlyfTable data start loca = Ok resolved ->
    loca !! i = Some offset ->
    loca !! S i = Some nextOffset ->
    exists g,
      resolved !! i = Some g /\
      (offset = nextOffset ->
       numberOfContours g = 0 /\ points g = None /\
       (xMin g, yMin g, xMax g, yMax g) = (0, 0, 0, 0) /\
       forall tx ty, glyphToPath g tx ty = Ok (mkPath [])) /\
      (offset <> nextOffset -> numberOfContours g = 0 ->
       points g = Some [] /\
       DataView.getInt16 data (start + offset + 2) = Ok (xMin g) /\
       DataView.getInt16 data (start + offset + 4) = Ok (yMin g) /\
       DataView.getInt16 data (start + offset + 6) = Ok (xMax g) /\
       DataView.getInt16 data (start + offset + 8) = Ok (yMax g) /\
       forall tx ty, glyphToPath g tx ty = Ok (mkPath [CmdZ])).
Proof.
  intros data start loca resolved i o o' H Ho Ho'.
  unfold parseGlyfTable in H.
  destruct (parseGlyphs data start 0 loca) as [decoded| |] eqn:Ed; try discriminate.
  simpl in H. apply resolveAll_evolves in H.
  destruct (parseGlyphs_lookup _ _ _ _ _ Ed i o o' Ho Ho') as (g0 & Hg0 & Hempty & Hparsed).
  destruct (H _ _ Hg0) as (g & Hg & Hgrow & Hsame).
  exists g. split; [assumption|]. split.
  - intros Heq. rewrite (Hempty Heq) in Hsame. rewrite (Hsame eq_refl).
    repeat split.
  - intros Hne Hzero. specialize (Hparsed Hne).
    rewrite (grows_numberOfContours _ _ Hgrow) in Hzero.
    destruct (parseGlyph_inv _ _ _ _ Hparsed)
      as (_ & B1 & B2 & B3 & B4 & _ & Hz & _).
    destruct (Hz Hzero) as [Hpts Hsimple].
    rewrite (Hsame Hsimple).
    repeat split; try assumption.
    intros tx ty. apply glyphToPath_empty_points. assumption.
Qed.

Lemma contourless_glyphs_witness :
  (exists g,
      [emptyGlyph 0; mkGlyph 1 0 1 2 3 4 None None (Some []) false None] !! 0%nat = Some g /\
      (0 = 0 ->
       numberOfContours g = 0 /\ points g = None /\
       (xMin g, yMin g, xMax g, yMax g) = (0, 0, 0, 0) /\
       forall tx ty, glyphToPath g tx ty = Ok (mkPath [])) /\
      (0 <> 0 -> numberOfContours g = 0 ->
       points g = Some [] /\
       DataView.getInt16 contourlessData (0 + 0 + 2) = Ok (xMin g) /\
       DataView.getInt16 contourlessData (0 + 0 + 4) = Ok (yMin g) /\
       DataView.getInt16 contourlessData (0 + 0 + 6) = Ok (xMax g) /\
       DataView.getInt16 contourlessData (0 + 0 + 8) = Ok (yMax g) /\
       forall tx ty, glyphToPath g tx ty = Ok (mkPath [CmdZ]))) /\
  (exists g,
      [emptyGlyph 0; mkGlyph 1 0 1 2 3 4 None None (Some []) false None] !! 1%nat = Some g /\
      (0 = 10 ->
       numberOfContours g = 0 /\ points g = None /\
       (xMin g, yMin g, xMax g, yMax g) = (0, 0, 0, 0) /\
       forall tx ty, glyphToPath g tx ty = Ok (mkPath [])) /\
      (0 <> 10 -> numberOfContours g = 0 ->
       points g = Some [] /\
       DataView.getInt16 contourlessData (0 + 0 + 2) = Ok (xMin g) /\
       DataView.getInt16 contourlessData (0 + 0 + 4) = Ok (yMin g) /\
       DataView.getInt16 contourlessData (0 + 0 + 6) = Ok (xMax g) /\
       DataView.getInt16 contourlessData (0 + 0 + 8) = Ok (yMax g) /\
       forall tx ty, glyphToPath g tx ty = Ok (mkPath [CmdZ]))).
Proof.
  split.
  - apply (contourless_glyphs contourlessData 0 contourlessLoca _ 0 0 0);
      reflexivity.
  - apply (contourless_glyphs contourlessData 0 contourlessLoca _ 1 0 10);
      reflexivity.
Defined.

(** C4 as stated fails: a glyph record that declares 0 contours keeps the
    bounding box of its header, here (1, 2, 3, 4), and its path has one
    command. *)
Lemma declared_contourless_glyph_is_closed :
  exists gl g path,
    parseGlyfTable contourlessData 0 contourlessLoca = Ok gl /\
    gl !! 1%nat = Some g /\
    numberOfContours g = 0 /\
    points g = Some [] /\
    (xMin g, yMin g, xMax g, yMax g) = (1, 2, 3, 4) /\
    glyphToPath g None None = Ok path /\
    commands path = [CmdZ] /\
    List.length (commands path) <> 0%nat.
Proof.
  eexists _, _, _.
  split; [vm_compute; reflexivity|].
  split; [reflexivity|].
  repeat split. discriminate.
Qed.

(** ** Character to glyph index *)

Lemma shr1_half a : -2147483648 <= a < 2147483648 -> JS.shr a 1 = a / 2.
Proof.
  intros Ha. unfold JS.shr. rewrite ToInt32_small by assumption.
  change (1 mod 32) with 1. rewrite Z.shiftr_div_pow2 by lia. reflexivity.
Qed.

Lemma and_65535 v : JS.and v 65535 = v mod 65536.
Proof.
  unfold JS.and. rewrite (ToInt32_small 65535) by lia.
  change 65535 with (Z.ones 16). rewrite Z.land_ones by lia.
  destruct (ToInt32_congr v) as [q ->].
  replace (q * 4294967296) with ((q * 65536) * 2 ^ 16) by lia.
  apply Z.mod_add. lia.
Qed.

Lemma nthZ_inside {A} (l : list A) k :
  0 <= k < Z.of_nat (List.length l) -> exists a, nthZ l k = Some a.
Proof.
  intros Hk. unfold nthZ. destruct (Z.ltb_spec k 0); [lia|].
  destruct (l !! Z.to_nat k) as [a|] eqn:E; [eauto|].
  apply lookup_ge_None in E. lia.
Qed.

Lemma nthZ_range {A} (l : list A) k a :
  nthZ l k = Some a -> 0 <= k < Z.of_nat (List.length l).
Proof.
  intros H. apply nthZ_Some in H as [H0 H]. apply lookup_lt_Some in H. lia.
Qed.

Lemma nthZ_cons {A} (a : A) l k : 0 < k -> nthZ (a :: l) k = nthZ l (k - 1).
Proof.
  intros Hk. unfold nthZ.
  destruct (Z.ltb_spec k 0), (Z.ltb_spec (k - 1) 0); try lia.
  replace (Z.to_nat k) with (S (Z.to_nat (k - 1))) by lia. reflexivity.
Qed.

Lemma segmentsOrdered_head range rest :
  segmentsOrdered (range :: rest) = true ->
  forall next, List.In next rest -> end_ range < start next.
Proof.
  revert range. induction rest as [|r' rest IH]; intros range H next Hin; [contradiction|].
  cbn [segmentsOrdered] in H.
  apply andb_true_iff in H as [H Hrest]. apply andb_true_iff in H as [_ Hlt].
  apply Z.ltb_lt in Hlt.
  destruct Hin as [<-|Hin]; [assumption|].
  pose proof (IH r' Hrest next Hin).
  cbn [segmentsOrdered] in Hrest.
  apply andb_true_iff in Hrest as [Hr _]. apply andb_true_iff in Hr as [Hle _].
  apply Z.leb_le in Hle. lia.
Qed.

Lemma segmentsOrdered_tail range rest :
  segmentsOrdered (range :: rest) = true -> segmentsOrdered rest = true.
Proof.
  cbn [segmentsOrdered]. intros H. apply andb_true_iff in H as [_ H]. exact H.
Qed.

Lemma segmentsOrdered_le ranges :
  segmentsOrdered ranges = true ->
  forall range, List.In range ranges -> start range <= end_ range.
Proof.
  induction ranges as [|r rest IH]; intros H range Hin; [contradiction|].
  destruct Hin as [<-|Hin].
  - cbn [segmentsOrdered] in H. apply andb_true_iff in H as [H _].
    apply andb_true_iff in H as [H _]. now apply Z.leb_le.
  - apply IH; [eapply segmentsOrdered_tail; eassumption|assumption].
Qed.

Lemma nthZ_In {A} (l : list A) k a : nthZ l k = Some a -> List.In a l.
Proof.
  intros H. apply nthZ_Some in H as [_ H].
  apply list_elem_of_In. eapply list_elem_of_lookup_2. eassumption.
Qed.

Lemma In_nthZ {A} (l : list A) a : List.In a l -> exists k, nthZ l k = Some a.
Proof.
  intros H. apply list_elem_of_In, list_elem_of_lookup in H as [i Hi].
  exists (Z.of_nat i). now rewrite nthZ_of_nat.
Qed.

(** Ordered segments by position: an earlier one ends before a later one
    starts. *)
Lemma segmentsOrdered_lookup ranges :
  segmentsOrdered ranges = true ->
  forall i j ri rj, nthZ ranges i = Some ri -> nthZ ranges j = Some rj ->
                    i < j -> end_ ri < start rj.
Proof.
  induction ranges as [|r rest IH]; intros H i j ri rj Hi Hj Hij.
  - apply nthZ_range in Hi. simpl in Hi. lia.
  - pose proof (nthZ_range _ _ _ Hi) as Ri.
    destruct (Z.eq_dec i 0) as [->|Hne].
    + cbn in Hi. injection Hi as <-.
      rewrite nthZ_cons in Hj by lia.
      eapply segmentsOrdered_head; [eassumption|]. eapply nthZ_In; eassumption.
    + rewrite nthZ_cons in Hi, Hj by lia.
      apply (IH (segmentsOrdered_tail _ _ H) (i - 1) (j - 1)); auto; lia.
Qed.

(** The search ends, within its budget, on the last segment that starts at
    or before the code (or on the first segment if there is none). *)
Lemma searchRange_finds ranges code :
  segmentsOrdered ranges = true ->
  Z.of_nat (List.length ranges) <= 1073741824 ->
  forall fuel l r,
    0 <= l <= r -> r < Z.of_nat (List.length ranges) ->
    r - l <= Z.of_nat fuel ->
    startsUpTo ranges code l -> startsBeyond ranges code r ->
    exists m,
      searchRange fuel ranges (Some code) l r = Ok m /\
      0 <= m < Z.of_nat (List.length ranges) /\
      startsUpTo ranges code m /\ startsBeyond ranges code m.
Proof.
  intros Hord Hlen. induction fuel as [|fuel IH]; intros l r Hlr Hr Hfuel Hup Hbeyond.
  - assert (l = r) by lia. subst r. exists l. cbn [searchRange].
    rewrite Z.ltb_irrefl. repeat split; auto; lia.
  - cbn [searchRange]. destruct (Z.ltb_spec l r) as [Hlt|Hge].
    2:{ assert (l = r) by lia. subst r. exists l. repeat split; auto; lia. }
    rewrite shr1_half by lia.
    set (c := (l + r + 1) / 2).
    assert (Hc : l + 1 <= c <= r).
    { subst c. split.
      - apply Z.div_le_lower_bound; lia.
      - apply Z.div_le_upper_bound; lia. }
    destruct (nthZ_inside ranges c ltac:(lia)) as [range Hrange]. rewrite Hrange.
    pose proof (segmentsOrdered_le ranges Hord) as Hle.
    unfold codeLt. destruct (Z.ltb_spec code (start range)) as [Hcode|Hcode].
    + apply IH; try lia; [assumption|].
      intros j rj Hj Hrj.
      destruct (Z.eq_dec j c) as [->|Hne]; [congruence|].
      pose proof (segmentsOrdered_lookup ranges Hord c j range rj Hrange Hrj ltac:(lia)).
      pose proof (Hle range (nthZ_In _ _ _ Hrange)). lia.
    + apply IH; try lia; [|assumption].
      intros j rj Hj Hrj.
      destruct (Z.eq_dec j c) as [->|Hne]; [congruence|].
      pose proof (segmentsOrdered_lookup ranges Hord j c rj range Hrj Hrange ltac:(lia)).
      pose proof (Hle rj (nthZ_In _ _ _ Hrj)). lia.
Qed.

(** C2, as the code has it. For every font whose cmap has at least one
    segment, the segments ordered ascending and non-overlapping (and no more
    of them than the 32-bit midpoint computation can index):
    [charToGlyphIndex] on a character whose code lies inside a segment
    without an id array returns [(idDelta + code) & 0xFFFF], and on a
    character whose code lies in no segment returns 0. *)
Theorem charToGlyphIndex_segments :
  forall (font : Font) (s : list Z) (code : Z),
    charCodeAt0 s = Some code ->
    cmap font <> [] ->
    Z.of_nat (List.length (cmap font)) <= 1073741824 ->
    segmentsOrdered (cmap font) = true ->
    (forall range,
        List.In range (cmap font) -> inSegment code range = true ->
        ids range = None ->
        charToGlyphIndex font s = Ok (JS.and (idDelta range + code) 65535) /\
        JS.and (idDelta range + code) 65535 = (idDelta range + code) mod 65536) /\
    (forallb (fun range => negb (inSegment code range)) (cmap font) = true ->
     charToGlyphIndex font s = Ok 0).
Proof.
  intros font s code Hs Hne Hlen Hord.
  assert (Hpos : 0 < Z.of_nat (List.length (cmap font))).
  { destruct (cmap font); [contradiction|simpl; lia]. }
  destruct (searchRange_finds (cmap font) code Hord Hlen (List.length (cmap font))
              0 (Z.of_nat (List.length (cmap font)) - 1))
    as (m & Hm & Hrange & Hup & Hbeyond); try lia.
  { intros j rj Hj. lia. }
  { intros j rj Hj Hrj. apply nthZ_range in Hrj. lia. }
  destruct (nthZ_inside (cmap font) m Hrange) as [rm Hrm].
  unfold charToGlyphIndex. rewrite Hs, Hm. cbn [rbind]. rewrite Hrm.
  split.
  - intros range Hin Hinside Hids. split; [|apply and_65535].
    apply In_nthZ in Hin as [k Hk].
    unfold inSegment in Hinside. apply andb_true_iff in Hinside as [Hlo Hhi].
    apply Z.leb_le in Hlo, Hhi.
    assert (k = m).
    { destruct (Z.lt_trichotomy k m) as [Hlt|[Heq|Hgt]]; [|assumption|].
      - pose proof (segmentsOrdered_lookup _ Hord k m range rm Hk Hrm Hlt).
        pose proof (nthZ_range _ _ _ Hk).
        pose proof (Hup m rm ltac:(lia) Hrm). lia.
      - pose proof (Hbeyond k range Hgt Hk). lia. }
    subst k. rewrite Hrm in Hk. injection Hk as ->.
    unfold leCode, codeLe.
    destruct (Z.leb_spec (start range) code); [|lia].
    destruct (Z.leb_spec code (end_ range)); [|lia].
    simpl. rewrite Hids. reflexivity.
  - intros Hnone.
    rewrite forallb_forall in Hnone.
    specialize (Hnone rm (nthZ_In _ _ _ Hrm)).
    unfold inSegment in Hnone. unfold leCode, codeLe.
    destruct ((start rm <=? code) && (code <=? end_ rm)); [discriminate|reflexivity].
Qed.

Lemma charToGlyphIndex_segments_witness :
  (forall range,
      List.In range latinCmap -> inSegment 72 range = true ->
      ids range = None ->
      charToGlyphIndex (fontWithCmap latinCmap) [72; 105]
      = Ok (JS.and (idDelta range + 72) 65535) /\
      JS.and (idDelta range + 72) 65535 = (idDelta range + 72) mod 65536) /\
  (forallb (fun range => negb (inSegment 72 range)) latinCmap = true ->
   charToGlyphIndex (fontWithCmap latinCmap) [72; 105] = Ok 0).
Proof.
  apply (charToGlyphIndex_segments (fontWithCmap latinCmap) [72; 105] 72).
  - reflexivity.
  - discriminate.
  - simpl. lia.
  - reflexivity.
Defined.

Example charToGlyphIndex_examples :
  charToGlyphIndex (fontWithCmap latinCmap) [72] = Ok 36 /\
  charToGlyphIndex (fontWithCmap latinCmap) [100] = Ok 0 /\
  charToGlyphIndex (fontWithCmap latinCmap) [65535] = Ok 0 /\
  charToGlyphIndex (fontWithCmap latinCmap) [] = Ok 0.
Proof. repeat split. Qed.

(** C2 as stated fails on a cmap without segments: it is ordered and no
    segment holds the code, but reading [ranges[0].start] throws. *)
Lemma charToGlyphIndex_without_segments :
  segmentsOrdered (cmap (fontWithCmap [])) = true /\
  forallb (fun range => negb (inSegment 65 range)) (cmap (fontWithCmap [])) = true /\
  charToGlyphIndex (fontWithCmap []) [65] = Throw TypeError /\
  charToGlyphIndex (fontWithCmap []) [65] <> Ok 0.
Proof. repeat split. discriminate. Qed.

(** ** The version of a font file *)

Lemma getInt32_head b0 b1 b2 b3 rest :
  DataView.getInt32 (b0 :: b1 :: b2 :: b3 :: rest) 0 = Ok (word32 b0 b1 b2 b3).
Proof. reflexivity. Qed.

Lemma getTag_head b0 b1 b2 b3 rest :
  Parse.getTag (b0 :: b1 :: b2 :: b3 :: rest) 0
  = Ok (string_of_list_byte [b0; b1; b2; b3]).
Proof. reflexivity. Qed.

Lemma byteValue_range b : 0 <= byteValue b <= 255.
Proof. unfold byteValue. pose proof (Byte.to_N_bounded b). lia. Qed.

Lemma byteValue_inj b b' : byteValue b = byteValue b' -> b = b'.
Proof.
  unfold byteValue. intros H. apply N2Z.inj in H.
  pose proof (Byte.of_to_N b) as E. rewrite H, Byte.of_to_N in E. congruence.
Qed.

Lemma word32_version b0 b1 b2 b3 :
  word32 b0 b1 b2 b3 = 65536 -> [b0; b1; b2; b3] = trueTypeVersion.
Proof.
  unfold word32. intros H.
  pose proof (byteValue_range b0). pose proof (byteValue_range b1).
  pose proof (byteValue_range b2). pose proof (byteValue_range b3).
  assert (byteValue b0 = byteValue x00 /\ byteValue b1 = byteValue x01 /\
          byteValue b2 = byteValue x00 /\ byteValue b3 = byteValue x00) as (E0 & E1 & E2 & E3).
  { change (byteValue x00) with 0. change (byteValue x01) with 1.
    destruct (Z.leb_spec 2147483648
                ((byteValue b0 * 256 + byteValue b1) * 65536
                 + (byteValue b2 * 256 + byteValue b3))); lia. }
  apply byteValue_inj in E0, E1, E2, E3. subst. reflexivity.
Qed.

Lemma fixed_is_one n : Qeq_bool (inject_Z n / 65536) 1 = true -> n = 65536.
Proof.
  intros H. apply Qeq_bool_iff in H. unfold Qeq in H. simpl in H. lia.
Qed.

Lemma ascii_of_byte_inj b b' : ascii_of_byte b = ascii_of_byte b' -> b = b'.
Proof.
  intros H. apply (f_equal byte_of_ascii) in H.
  now rewrite !byte_of_ascii_of_byte in H.
Qed.

Lemma tag_is_otto b0 b1 b2 b3 :
  String.eqb (string_of_list_byte [b0; b1; b2; b3]) "OTTO" = true ->
  [b0; b1; b2; b3] = ottoTag.
Proof.
  intros H. apply String.eqb_eq in H.
  change "OTTO"%string with (string_of_list_byte ottoTag) in H.
  apply (f_equal list_byte_of_string) in H.
  now rewrite !list_byte_of_string_of_list_byte in H.
Qed.

(** C8. A buffer whose first four bytes are neither the version 0x00010000
    nor the tag 'OTTO' makes [parseBuffer] throw the unsupported-version
    error.  The outcome is the same whatever the decoding of the tables would
    do: the error is thrown before any table is looked at. *)
Theorem unsupported_version_is_fatal :
  forall (decodeTables : FontJS.Font -> DataView.t -> result FontJS.Font)
         (b0 b1 b2 b3 : byte) (rest : list byte),
    [b0; b1; b2; b3] <> trueTypeVersion ->
    [b0; b1; b2; b3] <> ottoTag ->
    Main.parseBuffer decodeTables (b0 :: b1 :: b2 :: b3 :: rest)
    = Throw (Error ("Unsupported OpenType version "
                    +:+ string_of_list_byte [b0; b1; b2; b3])).
Proof.
  intros decodeTables b0 b1 b2 b3 rest Hver Htag.
  unfold Main.parseBuffer, Parse.getFixed.
  rewrite getInt32_head. cbn [rbind].
  destruct (Qeq_bool (inject_Z (word32 b0 b1 b2 b3) / 65536) 1) eqn:Ev.
  { apply fixed_is_one, word32_version in Ev. contradiction. }
  rewrite getTag_head. cbn [rbind].
  destruct (String.eqb (string_of_list_byte [b0; b1; b2; b3]) "OTTO") eqn:Et.
  { apply tag_is_otto in Et. contradiction. }
  reflexivity.
Qed.

Lemma unsupported_version_is_fatal_witness :
  Main.parseBuffer (fun font _ => Ok font) [x77; x4f; x46; x46; x00; x01]
  = Throw (Error "Unsupported OpenType version wOFF").
Proof.
  apply (unsupported_version_is_fatal (fun font _ => Ok font) x77 x4f x46 x46 [x00; x01]).
  - discriminate.
  - discriminate.
Defined.

(** The two supported versions go on to the tables. *)
Lemma parseBuffer_truetype decodeTables rest :
  Main.parseBuffer decodeTables (trueTypeVersion ++ rest)
  = decodeTables (Main.setOutlinesFormat FontJS.newFont "truetype") (trueTypeVersion ++ rest).
Proof. reflexivity. Qed.

Lemma parseBuffer_cff decodeTables rest :
  Main.parseBuffer decodeTables (ottoTag ++ rest)
  = decodeTables (Main.setOutlinesFormat FontJS.newFont "cff") (ottoTag ++ rest).
Proof. reflexivity. Qed.

(** ** Kerning pairs *)

Lemma pretty_N_char_noComma n : Ascii.eqb (pretty_N_char n) "," = false.
Proof. unfold pretty_N_char. repeat case_match; reflexivity. Qed.

Lemma pretty_N_go_noComma n : forall s,
  noComma s = true -> noComma (pretty_N_go n s) = true.
Proof.
  induction (N.lt_wf_0 n) as [n _ IH]. intros s Hs.
  destruct (decide (n = 0%N)) as [->|Hn]; [now rewrite pretty_N_go_0|].
  rewrite pretty_N_go_step by lia. apply IH.
  - apply N.div_lt; lia.
  - simpl. now rewrite pretty_N_char_noComma, Hs.
Qed.

Lemma numberToString_noComma z : noComma (numberToString z) = true.
Proof.
  unfold numberToString, pretty, pretty_Z, pretty, pretty_positive, pretty, pretty_N.
  destruct z as [|p|p]; [reflexivity| |];
    (destruct (decide (N.pos p = 0%N)); [discriminate|]).
  - now apply pretty_N_go_noComma.
  - simpl. now apply pretty_N_go_noComma.
Qed.

Lemma append_nil s : "" +:+ s = s.
Proof. reflexivity. Qed.

Lemma append_cons c a s : String c a +:+ s = String c (a +:+ s).
Proof. reflexivity. Qed.

Lemma pairKey_inj a a' b b' :
  noComma a = true -> noComma a' = true ->
  pairKey a b = pairKey a' b' -> a = a' /\ b = b'.
Proof.
  unfold pairKey. revert a'.
  induction a as [|c a IH]; intros [|c' a'] Ha Ha' H;
    repeat (rewrite append_nil in H || rewrite append_cons in H);
    cbn [noComma] in *.
  - injection H as ->. auto.
  - injection H as <- _. discriminate.
  - injection H as -> _. discriminate.
  - injection H as -> H.
    apply andb_true_iff in Ha as [_ Ha]. apply andb_true_iff in Ha' as [_ Ha'].
    destruct (IH a' Ha Ha' H) as [-> ->]. auto.
Qed.

(** Distinct ordered pairs of indices have distinct keys. *)
Lemma indexKey_inj l r l' r' : indexKey l r = indexKey l' r' -> l = l' /\ r = r'.
Proof.
  unfold indexKey. intros H.
  apply pairKey_inj in H as [Hl Hr]; try apply numberToString_noComma.
  unfold numberToString in *. split; eapply (inj pretty); eassumption.
Qed.

Lemma kernTable_lookup entries l r :
  kernTable entries !! indexKey l r = storedValue entries l r.
Proof.
  unfold kernTable, storedValue.
  change (@None Z) with ((∅ : gmap string Z) !! indexKey l r).
  generalize (∅ : gmap string Z).
  induction entries as [|[[l' r'] v] entries IH]; intros m; simpl; [reflexivity|].
  rewrite IH. f_equal.
  destruct (decide (indexKey l' r' = indexKey l r)) as [E|E].
  - rewrite E, lookup_insert_eq. apply indexKey_inj in E as [-> ->].
    now rewrite !Z.eqb_refl.
  - rewrite lookup_insert_ne by assumption.
    destruct (Z.eqb_spec l' l) as [->|]; [|reflexivity].
    destruct (Z.eqb_spec r' r) as [->|]; [contradiction|reflexivity].
Qed.

Lemma storedValue_In entries l r v :
  storedValue entries l r = Some v -> List.In (l, r, v) entries.
Proof.
  unfold storedValue.
  assert (G : forall acc,
             fold_left (fun acc e => if (e.1.1 =? l) && (e.1.2 =? r)
                                     then Some e.2 else acc) entries acc = Some v ->
             acc = Some v \/ List.In (l, r, v) entries).
  { induction entries as [|[[l' r'] w] entries IH]; intros acc H; simpl in *; [auto|].
    destruct (IH _ H) as [Hacc|Hin]; [|auto].
    destruct (Z.eqb_spec l' l) as [->|]; [|auto].
    destruct (Z.eqb_spec r' r) as [->|]; [|auto].
    simpl in Hacc. injection Hacc as ->. auto. }
  intros H. destruct (G None H); [discriminate|assumption].
Qed.

Lemma or_0_small v : -2147483648 <= v < 2147483648 -> JS.or v 0 = v.
Proof.
  intros Hv. unfold JS.or. rewrite (ToInt32_small v Hv), (ToInt32_small 0) by lia.
  apply Z.lor_0_r.
Qed.

Lemma getUint16_range dv o u : DataView.getUint16 dv o = Ok u -> 0 <= u <= 65535.
Proof.
  unfold DataView.getUint16.
  destruct (DataView.getUint8 dv o) as [b0| |] eqn:E0; try discriminate.
  destruct (DataView.getUint8 dv (o + 1)) as [b1| |] eqn:E1; try discriminate.
  simpl. intros H. injection H as <-.
  apply getUint8_range in E0, E1. lia.
Qed.

Lemma getInt16_range dv o v : DataView.getInt16 dv o = Ok v -> -32768 <= v <= 32767.
Proof.
  unfold DataView.getInt16.
  destruct (DataView.getUint16 dv o) as [u| |] eqn:E; try discriminate.
  simpl. intros H. injection H as <-. apply getUint16_range in E.
  destruct (Z.leb_spec 32768 u); lia.
Qed.

(** The pair loop stores one entry per pair of the file, each with a signed
    16-bit value. *)
Lemma parsePairs_entries n : forall pairs p pairs' p',
  parsePairs n pairs p = Ok (pairs', p') ->
  exists entries : list KernEntry,
    List.length entries = n /\
    Forall (fun e => -32768 <= e.2 <= 32767) entries /\
    pairs' = fold_left (fun pairs e => <[indexKey e.1.1 e.1.2 := e.2]> pairs) entries pairs.
Proof.
  induction n as [|n IH]; intros pairs p pairs' p' H; cbn [parsePairs] in H.
  - apply ret_Ok in H. injection H as -> _. exists []. repeat split. constructor.
  - apply bind_Ok in H as (l & p1 & _ & H).
    apply bind_Ok in H as (r & p2 & _ & H).
    apply bind_Ok in H as (v & p3 & Hv & H).
    apply read_Ok in Hv as [Hv _]. apply getInt16_range in Hv.
    apply IH in H as (entries & Hlen & Hrange & ->).
    exists ((l, r, v) :: entries). simpl. repeat split; [lia|].
    constructor; assumption.
Qed.

(** [parseKernTable] returns the table of the entries it read. *)
Lemma parseKernTable_entries data start pairs :
  parseKernTable data start = Ok pairs ->
  exists entries : list KernEntry,
    Forall (fun e => -32768 <= e.2 <= 32767) entries /\ pairs = kernTable entries.
Proof.
  unfold parseKernTable. intros H.
  match type of H with
  | rbind (?body ?p0) _ = _ => destruct (body p0) as [[pairs0 p']| |] eqn:E
  end; try discriminate.
  simpl in H. injection H as <-.
  repeat (apply bind_Ok in E as (? & ? & _ & E)).
  apply parsePairs_entries in E as (entries & _ & Hrange & ->).
  exists entries. split; [assumption|reflexivity].
Qed.

Example parseKernTable_onePair :
  parseKernTable kernData 0 = Ok (kernTable onePair).
Proof. reflexivity. Qed.

(** C9, as the code has it. [getKerningValue] on two glyph indices returns
    the adjustment stored for that ordered pair and 0 for a pair that is not
    stored: always in opentype.js (whose table holds signed 16-bit values),
    and in src/font.js when no [GPOS] kerning function is installed on the
    font. *)
Theorem getKerningValue_of_pair :
  forall (entries : list KernEntry) (left right : Z),
    (Forall (fun e => -32768 <= e.2 <= 32767) entries ->
     forall font : OpenType.Font,
       OpenType.kerningPairs font = Some (kernTable entries) ->
       OpenType.getKerningValue font (AnIndex left) (AnIndex right)
       = Ok (default 0 (storedValue entries left right))) /\
    (forall font : FontJS.Font,
        FontJS.kerningPairs font = Some (kernTable entries) ->
        FontJS.getGposKerningValue font = None ->
        FontJS.getKerningValue font (AnIndex left) (AnIndex right)
        = Ok (default 0 (storedValue entries left right))).
Proof.
  intros entries l r. split.
  - intros Hrange font Hpairs.
    unfold OpenType.getKerningValue. rewrite Hpairs. cbn [indexOrSelf toString].
    fold (indexKey l r). rewrite kernTable_lookup.
    destruct (storedValue entries l r) as [v|] eqn:E; [|reflexivity].
    apply storedValue_In in E. rewrite List.Forall_forall in Hrange.
    specialize (Hrange _ E). simpl in Hrange.
    simpl. rewrite or_0_small by lia. reflexivity.
  - intros font Hpairs Hgpos.
    unfold FontJS.getKerningValue. rewrite Hgpos, Hpairs.
    cbn [FontJS.indexOrSelf toString].
    fold (indexKey l r). rewrite kernTable_lookup.
    destruct (storedValue entries l r) as [v|]; [|reflexivity].
    simpl. destruct (Z.eqb_spec v 0) as [->|]; reflexivity.
Qed.

Lemma getKerningValue_of_pair_witness :
  (OpenType.getKerningValue (kernFont onePair) (AnIndex 4) (AnIndex 9) = Ok (-50) /\
   FontJS.getKerningValue (kernFontJS onePair) (AnIndex 4) (AnIndex 9) = Ok (-50)) /\
  (OpenType.getKerningValue (kernFont onePair) (AnIndex 9) (AnIndex 4) = Ok 0 /\
   FontJS.getKerningValue (kernFontJS onePair) (AnIndex 9) (AnIndex 4) = Ok 0).
Proof.
  split; split.
  - apply (proj1 (getKerningValue_of_pair onePair 4 9)); [|reflexivity].
    repeat constructor; simpl; lia.
  - apply (proj2 (getKerningValue_of_pair onePair 4 9)); reflexivity.
  - apply (proj1 (getKerningValue_of_pair onePair 9 4)); [|reflexivity].
    repeat constructor; simpl; lia.
  - apply (proj2 (getKerningValue_of_pair onePair 9 4)); reflexivity.
Defined.

(** C9 as stated fails in src/font.js once a [GPOS] kerning function is on
    the font: the stored pair is not consulted. *)
Lemma gpos_overrides_kerning_pairs :
  FontJS.kerningPairs (gposFontJS onePair) = Some (kernTable onePair) /\
  storedValue onePair 4 9 = Some (-50) /\
  FontJS.getKerningValue (gposFontJS onePair) (AnIndex 4) (AnIndex 9) = Ok 0 /\
  FontJS.getKerningValue (gposFontJS onePair) (AnIndex 4) (AnIndex 9) <> Ok (-50).
Proof. repeat split. discriminate. Qed.

(** ** The glyph set: deferred loaders *)

Section GlyphSetFacts.

Context {Fields PathData : Type}.
Abbreviation State := (@GlyphSet.State Fields PathData).
Abbreviation Loader := (@GlyphSet.Loader Fields PathData).
Abbreviation Entry := (@GlyphSet.Entry Fields PathData).
Abbreviation Glyph := (@GlyphSet.Glyph Fields PathData).






(** ** The steps of the model *)












(** ** Runs of decoders and reads of paths *)






(** ** Populated sets *)





(** ** Reads of a path *)




(** A run of [m; f] is a run of [m] followed, if [m] returns, by a run of
    [f] from the state [m] has left. *)
Lemma exec_bind {A B}
      (readPath : GlyphSet.glyphRef -> State -> result GlyphSet.pathRef * State)
      (m : GlyphSet.Prog A) (f : A -> GlyphSet.Prog B) :
  forall s,
    GlyphSet.exec readPath (GlyphSet.bind m f) s
    = match GlyphSet.exec readPath m s with
      | (Ok a, s') => GlyphSet.exec readPath (f a) s'
      | (Throw e, s') => (Throw e, s')
      | (OutOfFuel, s') => (OutOfFuel, s')
      end.
Proof.
  induction m as [a|e|index k IH|glyph k IH|glyph d k IH|glyph k IH|p k IH];
    intros s; cbn [GlyphSet.bind GlyphSet.exec]; try reflexivity.
  - destruct (GlyphSet.get index s) as [g s1]. apply IH.
  - apply IH.
  - destruct (GlyphSet.heap s !! glyph); [apply IH|reflexivity].
  - destruct (readPath glyph s) as [[p|e|] s1]; [apply IH|reflexivity..].
  - apply IH.
Qed.

(** The path function of a TrueType loader runs [parseGlyph] on the glyph
    and then [buildPath] on what [parseGlyph] has left; when [parseGlyph]
    throws, [buildPath] is not run. *)
Lemma ttfGlyphLoader_pathFn {D R}
      (readPath : GlyphSet.glyphRef -> State -> result GlyphSet.pathRef * State)
      index (parseGlyph : GlyphSet.glyphRef -> D -> Z -> GlyphSet.Prog R)
      data position (buildPath : GlyphSet.glyphRef -> GlyphSet.Prog PathData)
      glyph (s : State) :
  GlyphSet.exec readPath
    (GlyphSet.pathFn (GlyphSet.ttfGlyphLoader index parseGlyph data position buildPath)
                     glyph) s
  = match GlyphSet.exec readPath (parseGlyph glyph data position) s with
    | (Ok _, s') => GlyphSet.exec readPath (buildPath glyph) s'
    | (Throw e, s') => (Throw e, s')
    | (OutOfFuel, s') => (OutOfFuel, s')
    end.
Proof. apply exec_bind. Qed.






End GlyphSetFacts.



(** The path of the glyph 7 is read from a set that has not been used: the
    loaders of 7 and of its component 0 run, the path function of 7 fills
    the glyph, fetches the component through the set and reads its path,
    which calls the path function of 0.  Both outlines are kept, and the
    next read, also one that may not call any path function, returns the
    same path object and changes nothing. *)
Example getGlyphPath_of_composite :
  let r := GlyphSet.getGlyphPath 2 7 (populate twoLoaders) in
  r.1 = Ok 1%nat /\
  GlyphSet.paths r.2 = [[CmdZ]; [CmdZ; CmdM 0 0; CmdZ]] /\
  GlyphSet.log r.2 = [GlyphSet.Produced 7; GlyphSet.Decoding 0%nat;
                      GlyphSet.Produced 0; GlyphSet.Decoding 1%nat] /\
  GlyphSet.getGlyphPath 0 7 r.2 = (Ok 1%nat, r.2).
Proof. vm_compute. repeat split. Qed.

(** A path function that throws has returned no path to keep: the glyph 9
    asks for a component that is not in the set, every read of its path
    throws, and every read calls the path function again.  Its loader has
    run once all the same. *)
Example throwing_path_function :
  let r1 := GlyphSet.getGlyphPath 2 9 (populate threeLoaders) in
  let r2 := GlyphSet.getGlyphPath 2 9 r1.2 in
  r1.1 = Throw TypeError /\ r2.1 = Throw TypeError /\
  GlyphSet.loaderRuns 9 r2.2 = 1%nat /\
  GlyphSet.decodeRuns 0%nat r2.2 = 2%nat.
Proof. vm_compute. repeat split. Qed.
